(** * Feynman AI tutor: the tree store and its derived views

    A shallow embedding of the client-side tree model of the repository:

    - [src/store/useStore.ts]: the zustand store ([StoreState]) and its
      mutations [addNode], [deleteNode], [updateNodeLabel],
      [updateNodeDescription], [reparentNode], [onNodeDragStop] and
      [saveTreeToSupabase];
    - [src/app/components/LearningTree.tsx]: the derived views
      [getFocusedNodes], [getDefaultFocusedNodes], [calculateBreadcrumbPath]
      and the rectangle test [isNodeIntersecting].

    Conventions of the embedding.

    - A JS array of nodes is a [list TreeNode]; [Array.prototype.find],
      [filter] and [map] are [List.find], [List.filter] and [List.map].
    - [string | null] is [option string]; a test by truthiness
      ([if (!x) ...]) is [truthy], which is false on [null] and on the empty
      string.
    - A JS number is an IEEE 754 binary64 value: Rocq's primitive [float],
      whose [+] and [<] are the machine's, so sums round as they do in the
      browser. The rectangle test is written over an arbitrary number type
      ([Layout.Number]) and run on [float].
    - An [async] store action is a state transformer with three outcomes:
      the promise is fulfilled ([Returns]), it is rejected by a [throw] of
      the action ([Throws]), or one of its walks over the parent links does
      not come to an end ([Diverges]: a loop that spins forever, a recursion
      that outruns the call stack). Walks take a [fuel] argument bounding
      the number of iterations; running out of fuel stands for a walk that is
      still going.
    - The two things an action asks of the outside world, a fresh UUID and the
      answer of the remote store to a write, are given by an [Env]. *)

From stdpp Require Import base gmap strings relations.
From Stdlib Require Import ZArith String Bool List Lia.
From Stdlib Require Import PrimFloat SpecFloat FloatOps.
Import ListNotations.
Open Scope string_scope.
Open Scope list_scope.

(** ** Data model ([src/store/useStore.ts], lines 6-37) *)

Record Position := mkPosition { x : float; y : float }.

Record TreeNode := mkTreeNode {
  id : string;
  label : string;
  description : option string;
  parentId : option string;
  position : Position
}.

Record StoreState := mkStoreState {
  selectedNode : option TreeNode;
  currentTreeId : option string;
  nodes : list TreeNode;
  isPanelOpen : bool;
  focusedNodeId : option string;
  breadcrumbPath : list TreeNode
}.

(** JS truthiness of a [string | null]: [null] and [''] are falsy. *)
Definition truthy (v : option string) : bool :=
  match v with
  | Some s => negb (s =? "")
  | None => false
  end.

(** [v === s] for [v : string | null] and [s : string]. *)
Definition strictEq (v : option string) (s : string) : bool :=
  match v with
  | Some p => p =? s
  | None => false
  end.

(** [v === null]. *)
Definition isNull (v : option string) : bool :=
  match v with
  | Some _ => false
  | None => true
  end.

(** [nodes.find((n) => n.id === nodeId)]. *)
Definition findById (node_id : string) (ns : list TreeNode) : option TreeNode :=
  find (fun n => id n =? node_id) ns.

(** ** The outside world and the outcome of an action *)

Definition Error := string.

Record Env := mkEnv {
  (** the value [crypto.randomUUID()] returns in this call *)
  randomUUID : string;
  (** the [error] field of the answer to
      [supabase.from('learning_trees').update({ nodes }).eq('id', treeId)]:
      [None] when the write went through *)
  supabase_update : string -> list TreeNode -> option Error
}.

Inductive Outcome (A : Type) : Type :=
| Returns (a : A) (s : StoreState)
| Throws (e : Error) (s : StoreState)
| Diverges.
Arguments Returns {A} a s.
Arguments Throws {A} e s.
Arguments Diverges {A}.

Definition M (A : Type) : Type := StoreState -> Outcome A.

Definition ret {A} (a : A) : M A := fun s => Returns a s.

Definition bind {A B} (m : M A) (k : A -> M B) : M B :=
  fun s =>
    match m s with
    | Returns a s' => k a s'
    | Throws e s' => Throws e s'
    | Diverges => Diverges
    end.

Notation "v <- m ;; k" := (bind m (fun v => k))
  (at level 20, m at level 99, k at level 200).
Notation "m ;;; k" := (bind m (fun _ => k))
  (at level 20, k at level 200).

(** [get()] *)
Definition get : M StoreState := fun s => Returns s s.

(** The store with its [nodes] field replaced. *)
Definition withNodes (s : StoreState) (ns : list TreeNode) : StoreState :=
  mkStoreState (selectedNode s) (currentTreeId s) ns (isPanelOpen s)
    (focusedNodeId s) (breadcrumbPath s).

(** [set({ nodes })] *)
Definition set_nodes (ns : list TreeNode) : M unit :=
  fun s => Returns tt (withNodes s ns).

(** [throw err] *)
Definition throw {A} (e : Error) : M A := fun s => Throws e s.

(** [try { m } catch (err) { h err }] *)
Definition try_catch {A} (m : M A) (h : Error -> M A) : M A :=
  fun s =>
    match m s with
    | Returns a s' => Returns a s'
    | Throws e s' => h e s'
    | Diverges => Diverges
    end.

(** The result of a walk: [None] is a walk that ran out of fuel. *)
Definition walk {A} (r : option A) : M A :=
  fun s =>
    match r with
    | Some a => Returns a s
    | None => Diverges
    end.

(** ** Store actions ([src/store/useStore.ts]) *)

(** [setNodes], line 59. *)
Definition setNodes (ns : list TreeNode) : M unit := set_nodes ns.

(** [saveTreeToSupabase], lines 299-324. *)
Definition saveTreeToSupabase (env : Env) : M unit :=
  s <- get ;;
  match currentTreeId s with
  | Some treeId =>
      if negb (truthy (currentTreeId s)) then ret tt
      else
        match supabase_update env treeId (nodes s) with
        | Some error => throw error
        | None => ret tt
        end
  | None => ret tt
  end.

(** The label of a node made by [addNode] (line 122). *)
Definition newNodeLabel : string := "新節點".

(** [addNode], lines 105-142. *)
Definition addNode (env : Env) (parent_id : string) : M unit :=
  s <- get ;;
  let nodes0 := nodes s in
  if negb (truthy (currentTreeId s)) then ret tt
  else
    match findById parent_id nodes0 with
    | None => ret tt
    | Some parentNode =>
        let newId := randomUUID env in
        let offset := 50%float in
        let newNode :=
          mkTreeNode newId newNodeLabel None (Some parent_id)
            (mkPosition (x (position parentNode) + offset)%float
                        (y (position parentNode) + offset)%float) in
        let updatedNodes := nodes0 ++ [newNode] in
        set_nodes updatedNodes ;;;
        try_catch (saveTreeToSupabase env)
          (fun err => set_nodes nodes0 ;;; throw err)
    end.

(** [findChildren], lines 151-160: the ids of the nodes below [parent_id],
    depth first, in array order. [fuel] bounds the depth of the recursion. *)
Fixpoint findChildren (fuel : nat) (ns : list TreeNode) (parent_id : string)
  : option (list string) :=
  match fuel with
  | O => None
  | S fuel' =>
      fold_left
        (fun (acc : option (list string)) (node : TreeNode) =>
           match acc with
           | None => None
           | Some children =>
               if strictEq (parentId node) parent_id then
                 match findChildren fuel' ns (id node) with
                 | None => None
                 | Some below => Some (children ++ id node :: below)
                 end
               else Some children
           end)
        ns (Some [])
  end.

(** [deleteNode], lines 144-174. *)
Definition deleteNode (fuel : nat) (env : Env) (node_id : string) : M unit :=
  s <- get ;;
  let nodes0 := nodes s in
  if negb (truthy (currentTreeId s)) then ret tt
  else
    below <- walk (findChildren fuel nodes0 node_id) ;;
    let nodesToDelete : gset string := list_to_set (node_id :: below) in
    let updatedNodes :=
      filter (fun node => negb (bool_decide (id node ∈ nodesToDelete))) nodes0 in
    set_nodes updatedNodes ;;;
    try_catch (saveTreeToSupabase env)
      (fun err => set_nodes nodes0 ;;; throw err).

(** [updateNodeLabel], lines 176-196. *)
Definition updateNodeLabel (env : Env) (node_id newLabel : string) : M unit :=
  s <- get ;;
  let nodes0 := nodes s in
  if negb (truthy (currentTreeId s)) then ret tt
  else
    let updatedNodes :=
      map (fun node =>
             if id node =? node_id
             then mkTreeNode (id node) newLabel (description node)
                    (parentId node) (position node)
             else node) nodes0 in
    set_nodes updatedNodes ;;;
    try_catch (saveTreeToSupabase env)
      (fun err => set_nodes nodes0 ;;; throw err).

(** [updateNodeDescription], lines 198-218; [newDescription || undefined]
    stores the empty string as an absent description. *)
Definition updateNodeDescription (env : Env) (node_id newDescription : string)
  : M unit :=
  s <- get ;;
  let nodes0 := nodes s in
  if negb (truthy (currentTreeId s)) then ret tt
  else
    let updatedNodes :=
      map (fun node =>
             if id node =? node_id
             then mkTreeNode (id node) (label node)
                    (if newDescription =? "" then None else Some newDescription)
                    (parentId node) (position node)
             else node) nodes0 in
    set_nodes updatedNodes ;;;
    try_catch (saveTreeToSupabase env)
      (fun err => set_nodes nodes0 ;;; throw err).

(** [isAncestor], lines 228-237. [fuel] bounds the number of recursive
    calls. *)
Fixpoint isAncestor (fuel : nat) (ns : list TreeNode)
    (ancestorId descendantId : string) : option bool :=
  match findById descendantId ns with
  | None => Some false
  | Some descendant =>
      match parentId descendant with
      | None => Some false
      | Some p =>
          if negb (truthy (Some p)) then Some false
          else if p =? ancestorId then Some true
          else
            match fuel with
            | O => None
            | S fuel' => isAncestor fuel' ns ancestorId p
            end
      end
  end.

(** [reparentNode], lines 220-257. *)
Definition reparentNode (fuel : nat) (env : Env) (node_id newParentId : string)
  : M unit :=
  s <- get ;;
  let nodes0 := nodes s in
  if negb (truthy (currentTreeId s)) then ret tt
  else
    cyclic <- walk (isAncestor fuel nodes0 node_id newParentId) ;;
    if (cyclic : bool) then ret tt
    else
      let updatedNodes :=
        map (fun node =>
               if id node =? node_id
               then mkTreeNode (id node) (label node) (description node)
                      (Some newParentId) (position node)
               else node) nodes0 in
      set_nodes updatedNodes ;;;
      try_catch (saveTreeToSupabase env)
        (fun err => set_nodes nodes0 ;;; throw err).

(** [onNodeDragStop], lines 259-297. *)
Definition onNodeDragStop (env : Env) (node_id : string) (pos : Position)
  : M unit :=
  s <- get ;;
  let nodes0 := nodes s in
  if negb (truthy (currentTreeId s)) then ret tt
  else
    let updatedNodes :=
      map (fun node =>
             if id node =? node_id
             then mkTreeNode (id node) (label node) (description node)
                    (parentId node) pos
             else node) nodes0 in
    set_nodes updatedNodes ;;;
    try_catch (saveTreeToSupabase env)
      (fun err => set_nodes nodes0 ;;; throw err).

(** The six mutating actions as one type, and their dispatch. *)
Inductive Mutation : Type :=
| AddNode (parent_id : string)
| DeleteNode (node_id : string)
| UpdateNodeLabel (node_id newLabel : string)
| UpdateNodeDescription (node_id newDescription : string)
| ReparentNode (node_id newParentId : string)
| OnNodeDragStop (node_id : string) (pos : Position).

Definition perform (fuel : nat) (env : Env) (m : Mutation) : M unit :=
  match m with
  | AddNode parent_id => addNode env parent_id
  | DeleteNode node_id => deleteNode fuel env node_id
  | UpdateNodeLabel node_id newLabel => updateNodeLabel env node_id newLabel
  | UpdateNodeDescription node_id newDescription =>
      updateNodeDescription env node_id newDescription
  | ReparentNode node_id newParentId =>
      reparentNode fuel env node_id newParentId
  | OnNodeDragStop node_id pos => onNodeDragStop env node_id pos
  end.

(** The arrays the actions publish, named for the statements below. *)

Definition relabel (node_id newLabel : string) (ns : list TreeNode) :=
  map (fun node =>
         if id node =? node_id
         then mkTreeNode (id node) newLabel (description node)
                (parentId node) (position node)
         else node) ns.

Definition redescribe (node_id newDescription : string) (ns : list TreeNode) :=
  map (fun node =>
         if id node =? node_id
         then mkTreeNode (id node) (label node)
                (if newDescription =? "" then None else Some newDescription)
                (parentId node) (position node)
         else node) ns.

Definition reparent (node_id newParentId : string) (ns : list TreeNode) :=
  map (fun node =>
         if id node =? node_id
         then mkTreeNode (id node) (label node) (description node)
                (Some newParentId) (position node)
         else node) ns.

Definition move (node_id : string) (pos : Position) (ns : list TreeNode) :=
  map (fun node =>
         if id node =? node_id
         then mkTreeNode (id node) (label node) (description node)
                (parentId node) pos
         else node) ns.

Definition prune (node_id : string) (below : list string) (ns : list TreeNode) :=
  filter
    (fun node =>
       negb (bool_decide (id node ∈ (list_to_set (node_id :: below) : gset string))))
    ns.

(** ** Derived views ([src/app/components/LearningTree.tsx]) *)

(** [getFocusedNodes], lines 136-149. *)
Definition getFocusedNodes (focusNodeId : string) (allNodes : list TreeNode)
  : list TreeNode :=
  if negb (truthy (Some focusNodeId)) then allNodes
  else
    match findById focusNodeId allNodes with
    | None => allNodes
    | Some focusNode =>
        let result := [focusNode] in
        let firstLevelChildren :=
          filter (fun n => strictEq (parentId n) focusNodeId) allNodes in
        result ++ firstLevelChildren
    end.

(** [getDefaultFocusedNodes], lines 176-190. *)
Definition getDefaultFocusedNodes (allNodes : list TreeNode) : list TreeNode :=
  if (length allNodes =? 0)%nat then []
  else
    match find (fun n => isNull (parentId n)) allNodes with
    | None => allNodes
    | Some rootNode =>
        let result := [rootNode] in
        let firstLevelChildren :=
          filter (fun n => strictEq (parentId n) (id rootNode)) allNodes in
        result ++ firstLevelChildren
    end.

(** [effectiveData], lines 192-194: the focused view the component draws. *)
Definition effectiveData (focused : option string) (allNodes : list TreeNode)
  : list TreeNode :=
  match focused with
  | Some f =>
      if truthy focused then getFocusedNodes f allNodes
      else getDefaultFocusedNodes allNodes
  | None => getDefaultFocusedNodes allNodes
  end.

(** The [while] loop of [calculateBreadcrumbPath], lines 156-164; one unit
    of [fuel] is spent each time the body is entered. *)
Fixpoint breadcrumbLoop (fuel : nat) (allNodes : list TreeNode)
    (currentNode : option TreeNode) (path : list TreeNode) {struct fuel}
  : option (list TreeNode) :=
  match currentNode with
  | None => Some path
  | Some current =>
      if negb (truthy (parentId current)) then Some path
      else
        match fuel with
        | O => None
        | S fuel' =>
            match parentId current with
            | None => Some path
            | Some pid =>
                match findById pid allNodes with
                | Some parent =>
                    breadcrumbLoop fuel' allNodes (Some parent) (parent :: path)
                | None => Some path
                end
            end
        end
  end.

(** [calculateBreadcrumbPath], lines 152-173. *)
Definition calculateBreadcrumbPath (fuel : nat) (nodeId : string)
    (allNodes : list TreeNode) : option (list TreeNode) :=
  match breadcrumbLoop fuel allNodes (findById nodeId allNodes) [] with
  | None => None
  | Some path =>
      match findById nodeId allNodes with
      | Some targetNode => Some (path ++ [targetNode])
      | None => Some path
      end
  end.

(** ** Trees, as the specification speaks of them *)

(** The nodes with [parentId == null]. *)
Definition roots (ns : list TreeNode) : list TreeNode :=
  filter (fun n => isNull (parentId n)) ns.

Definition one_root (ns : list TreeNode) : Prop := length (roots ns) = 1%nat.

Definition unique_ids (ns : list TreeNode) : Prop := List.NoDup (map id ns).

(** Ids are never the empty string: the walks test a [parentId] by
    truthiness, so the empty string cannot serve as a reference. *)
Definition proper_ids (ns : list TreeNode) : Prop :=
  Forall (fun n => id n <> "") ns.

(** [depth ns n d]: [n] is [d] parent links away from a root of [ns]. *)
Inductive depth (ns : list TreeNode) : TreeNode -> nat -> Prop :=
| depth_root n :
    In n ns -> parentId n = None -> depth ns n 0
| depth_child n p d :
    In n ns -> parentId n = Some (id p) -> depth ns p d -> depth ns n (S d).

(** [descendant ns a m]: [m] lies strictly below the node with id [a]. *)
Inductive descendant (ns : list TreeNode) (a : string) : TreeNode -> Prop :=
| descendant_child m :
    In m ns -> parentId m = Some a -> descendant ns a m
| descendant_below m k :
    descendant ns a k -> In m ns -> parentId m = Some (id k) ->
    descendant ns a m.

(** A node set forms a tree: ids are unique and proper, there is one root,
    and every node is finitely many parent links away from it. *)
Definition is_tree (ns : list TreeNode) : Prop :=
  unique_ids ns /\ proper_ids ns /\ one_root ns /\
  forall n, In n ns -> exists d, depth ns n d.

(** One iteration of the upward walk, as a relation on nodes: the walk moves
    from [c] to [p] when [c.parentId] is truthy and resolves to [p]. *)
Definition parentStep (ns : list TreeNode) (c p : TreeNode) : Prop :=
  exists pid, parentId c = Some pid /\ pid <> "" /\ findById pid ns = Some p.

(** No node the walk from [c0] can reach lies on a cycle of parent links. *)
Definition acyclic_from (ns : list TreeNode) (c0 : TreeNode) : Prop :=
  forall c, rtc (parentStep ns) c0 c -> ~ tc (parentStep ns) c c.

(** [node_id] is the id of a root. *)
Definition isRootId (ns : list TreeNode) (node_id : string) : bool :=
  existsb (fun n => isNull (parentId n) && (id n =? node_id)) ns.

(** A successful mutation: the action's promise is fulfilled. *)
Inductive mutation_step (s s' : StoreState) : Prop :=
| mutation_step_intro (fuel : nat) (env : Env) (m : Mutation) :
    perform fuel env m s = Returns tt s' -> mutation_step s s'.

(** The mutations that cannot remove or re-parent the root: [deleteNode] and
    [reparentNode] are not called on the root's id, and the UUID drawn by
    [addNode] is not an id of the node set. *)
Definition spares_root (env : Env) (m : Mutation) (s : StoreState) : Prop :=
  match m with
  | AddNode _ => ~ In (randomUUID env) (map id (nodes s))
  | DeleteNode node_id => isRootId (nodes s) node_id = false
  | ReparentNode node_id _ => isRootId (nodes s) node_id = false
  | _ => True
  end.

Inductive guarded_step (s s' : StoreState) : Prop :=
| guarded_step_intro (fuel : nat) (env : Env) (m : Mutation) :
    spares_root env m s ->
    perform fuel env m s = Returns tt s' -> guarded_step s s'.

(** [findChildren] one level at a time: the ids found below [parent_id] in
    [l], given what the recursive call [sub] finds below each child. *)
Fixpoint gather (sub : string -> option (list string)) (parent_id : string)
    (l : list TreeNode) : option (list string) :=
  match l with
  | [] => Some []
  | node :: rest =>
      if strictEq (parentId node) parent_id then
        match sub (id node), gather sub parent_id rest with
        | Some below, Some others => Some (id node :: below ++ others)
        | _, _ => None
        end
      else gather sub parent_id rest
  end.

(** A path of nodes in which each one is the parent of the next. *)
Fixpoint linked (path : list TreeNode) : Prop :=
  match path with
  | a :: (b :: _) as rest => parentId b = Some (id a) /\ linked rest
  | _ => True
  end.

(** ** Sample data *)

Definition origin : Position := mkPosition 0 0.

Definition nodeR : TreeNode := mkTreeNode "root" "Python" None None origin.
Definition nodeA : TreeNode :=
  mkTreeNode "A" "Basics" None (Some "root") (mkPosition 300 100).
Definition nodeB : TreeNode :=
  mkTreeNode "B" "Advanced" (Some "later") (Some "root") (mkPosition 300 300).
Definition nodeC : TreeNode :=
  mkTreeNode "C" "Loops" None (Some "A") (mkPosition 600 100).

Definition sampleNodes : list TreeNode := [nodeR; nodeA; nodeB; nodeC].

Definition storeOf (tree : option string) (ns : list TreeNode) : StoreState :=
  mkStoreState None tree ns false None [].

Definition sampleStore : StoreState := storeOf (Some "tree-1") sampleNodes.

(** A remote store that accepts every write, and one that refuses them. *)
Definition okEnv : Env := mkEnv "uuid-1" (fun _ _ => None).
Definition failEnv : Env := mkEnv "uuid-1" (fun _ _ => Some "network error").



(** Two nodes that name each other as parent. *)
Definition cyclicNodes : list TreeNode :=
  [ mkTreeNode "P" "p" None (Some "Q") origin;
    mkTreeNode "Q" "q" None (Some "P") origin ].

(** ** The rectangle test ([src/app/components/LearningTree.tsx], 34-56) *)

Module Layout.

(** What [isNodeIntersecting] uses of JS numbers: the comparison [<]
    ([a > b] is evaluated as [b < a]), the sum, the truthiness test of
    [w || d] and numeric literals. Nothing is assumed about them, so a
    statement over every [Number] holds for IEEE doubles too. *)
Class Number (num : Type) := {
  lt : num -> num -> bool;
  plus : num -> num -> num;
  falsy : num -> bool;
  literal : Z -> num
}.

(** An integer literal of the source as a double: the nearest binary64
    value, ties to even. *)
Definition float_of_Z (v : Z) : float :=
  SF2Prim (binary_normalize prec emax v 0 false).

(** JS numbers: [<] and [+] are IEEE comparison and addition; [0], [-0] and
    [NaN] are the falsy ones. *)
#[global] Instance Number_float : Number float := {|
  lt := PrimFloat.ltb;
  plus := PrimFloat.add;
  falsy := fun v => PrimFloat.is_zero v || PrimFloat.is_nan v;
  literal := float_of_Z
|}.

Section Rectangles.
Context {num : Type} `{Number num}.

Definition gt (a b : num) : bool := lt b a.

(** [v || d] for [v : number | null | undefined]. *)
Definition orDefault (v : option num) (d : num) : num :=
  match v with
  | Some w => if falsy w then d else w
  | None => d
  end.

Record XY := mkXY { x : num; y : num }.

(** The fields of a React Flow [Node] the test reads. *)
Record Node := mkNode {
  id : string;
  position : XY;
  width : option num;
  height : option num
}.

Definition nodeWidth : num := literal 80.
Definition nodeHeight : num := literal 80.

Definition isNodeIntersecting (node1 node2 : Node) : bool :=
  let node1Left := x (position node1) in
  let node1Right := plus (x (position node1)) (orDefault (width node1) nodeWidth) in
  let node1Top := y (position node1) in
  let node1Bottom := plus (y (position node1)) (orDefault (height node1) nodeHeight) in
  let node2Left := x (position node2) in
  let node2Right := plus (x (position node2)) (orDefault (width node2) nodeWidth) in
  let node2Top := y (position node2) in
  let node2Bottom := plus (y (position node2)) (orDefault (height node2) nodeHeight) in
  negb (lt node1Right node2Left
        || gt node1Left node2Right
        || lt node1Bottom node2Top
        || gt node1Top node2Bottom).
End Rectangles.

Arguments XY num : clear implicits.
Arguments Node num : clear implicits.

End Layout.

(** ** The rest of the store ([src/store/useStore.ts], lines 46-103) *)

(** [setSelectedNode], line 46. *)
Definition setSelectedNode (node : TreeNode) : M unit :=
  fun s =>
    Returns tt
      (mkStoreState (Some node) (currentTreeId s) (nodes s) (isPanelOpen s)
         (focusedNodeId s) (breadcrumbPath s)).

(** [clearSelection], line 47. *)
Definition clearSelection : M unit :=
  fun s =>
    Returns tt
      (mkStoreState None (currentTreeId s) (nodes s) (isPanelOpen s)
         (focusedNodeId s) (breadcrumbPath s)).

(** [setFocusedNode], line 48. *)
Definition setFocusedNode (nodeId : option string) : M unit :=
  fun s =>
    Returns tt
      (mkStoreState (selectedNode s) (currentTreeId s) (nodes s) (isPanelOpen s)
         nodeId (breadcrumbPath s)).

(** [setBreadcrumbPath], line 49. *)
Definition setBreadcrumbPath (path : list TreeNode) : M unit :=
  fun s =>
    Returns tt
      (mkStoreState (selectedNode s) (currentTreeId s) (nodes s) (isPanelOpen s)
         (focusedNodeId s) path).

(** [openPanel], lines 50-56. *)
Definition openPanel (node_id : string) : M unit :=
  s <- get ;;
  match findById node_id (nodes s) with
  | Some node =>
      fun s' =>
        Returns tt
          (mkStoreState (Some node) (currentTreeId s') (nodes s') true
             (focusedNodeId s') (breadcrumbPath s'))
  | None => ret tt
  end.

(** [closePanel], line 57. *)
Definition closePanel : M unit :=
  fun s =>
    Returns tt
      (mkStoreState (selectedNode s) (currentTreeId s) (nodes s) false
         (focusedNodeId s) (breadcrumbPath s)).

(** [setCurrentTreeId], line 58. *)
Definition setCurrentTreeId (treeId : option string) : M unit :=
  fun s =>
    Returns tt
      (mkStoreState (selectedNode s) treeId (nodes s) (isPanelOpen s)
         (focusedNodeId s) (breadcrumbPath s)).

(** The answer of [supabase.from('learning_trees').insert(..).select()
    .single()]: the id of the inserted row ([data.id], when [data] is there)
    and the [error] field. *)
Record InsertAnswer := mkInsertAnswer {
  insertedId : option string;
  insertError : option Error
}.

(** [createEmptyTree], lines 69-103; [insert userId topic nodes] is the
    remote store's answer to the insertion. *)
Definition createEmptyTree
    (insert : string -> string -> list TreeNode -> InsertAnswer)
    (topic userId : string) : M unit :=
  let rootNode := mkTreeNode "root" topic None None (mkPosition 0 0) in
  try_catch
    (let answer := insert userId topic [rootNode] in
     match insertError answer with
     | Some error => throw error
     | None =>
         match insertedId answer with
         | Some dataId =>
             fun s =>
               Returns tt
                 (mkStoreState (selectedNode s) (Some dataId) [rootNode]
                    (isPanelOpen s) (focusedNodeId s) (breadcrumbPath s))
         | None => ret tt
         end
     end)
    (fun err => throw err).

(** ** The rest of the tree view ([src/app/components/LearningTree.tsx]) *)

(** [allNodes], line 133: the store's nodes, or the [data] prop while the
    store is empty. *)
Definition allNodes (data : list TreeNode) (s : StoreState) : list TreeNode :=
  if (0 <? length (nodes s))%nat then nodes s else data.

(** [handleNodeFocus], lines 437-447. *)
Definition handleNodeFocus (fuel : nat) (data : list TreeNode)
    (nodeId : string) : M unit :=
  if nodeId =? "root" then
    setFocusedNode None ;;; setBreadcrumbPath []
  else
    s <- get ;;
    setFocusedNode (Some nodeId) ;;;
    path <- walk (calculateBreadcrumbPath fuel nodeId (allNodes data s)) ;;
    setBreadcrumbPath path.

(** [handleNavigateToParent], lines 450-457. *)
Definition handleNavigateToParent (fuel : nat) (data : list TreeNode) : M unit :=
  s <- get ;;
  match focusedNodeId s with
  | None => ret tt
  | Some focused =>
      if negb (truthy (Some focused)) then ret tt
      else
        match findById focused (allNodes data s) with
        | None => ret tt
        | Some currentNode =>
            match parentId currentNode with
            | None => ret tt
            | Some pid =>
                if truthy (Some pid) then handleNodeFocus fuel data pid
                else ret tt
            end
        end
  end.

(** The edges the view draws (lines 228-244): one per displayed node with a
    non-null [parentId]; the fields kept are [id], [source] and [target].
    [`${item.parentId}`] prints a null as ["null"]. *)
Module Edge.
Record t := mk { id : string; source : option string; target : string }.
End Edge.

Definition edgesOf (effective : list TreeNode) : list Edge.t :=
  map (fun item =>
         Edge.mk
           ((match parentId item with Some p => p | None => "null" end)
            ++ "-" ++ id item)%string
           (parentId item) (id item))
      (filter (fun item => negb (isNull (parentId item))) effective).

(** A React Flow node as the drag handler reads it: the geometry of
    [Layout.Node] and [data.raw]. *)
Record FlowNode := mkFlowNode {
  geometry : Layout.Node float;
  raw : option TreeNode
}.

(** The flow nodes built from the displayed tree nodes (lines 216-226):
    same id, the stored position, no measured size yet. (The automatic
    layout of a new tree, lines 246-250, then changes positions only.) *)
Definition flowNodesOf (effective : list TreeNode) : list FlowNode :=
  map (fun item =>
         mkFlowNode
           (Layout.mkNode (id item)
              (Layout.mkXY (x (position item)) (y (position item))) None None)
           (Some item))
      effective.

(** [isDescendant], lines 515-524: the drag handler's own copy of
    [isAncestor], over the store's nodes. *)
Fixpoint isDescendant (fuel : nat) (storeNodes : list TreeNode)
    (ancestorId descendantId : string) : option bool :=
  match findById descendantId storeNodes with
  | None => Some false
  | Some descendant =>
      match parentId descendant with
      | None => Some false
      | Some p =>
          if negb (truthy (Some p)) then Some false
          else if p =? ancestorId then Some true
          else
            match fuel with
            | O => None
            | S fuel' => isDescendant fuel' storeNodes ancestorId p
            end
      end
  end.

(** The [onNodeDragStop] handler of the [ReactFlow] element, lines 498-537;
    [flowNodes] are the flow nodes on screen, [draggedNode] the one dropped. *)
Definition handleNodeDragStop (fuel : nat) (env : Env)
    (flowNodes : list FlowNode) (draggedNode : FlowNode) : M unit :=
  s <- get ;;
  let storeNodes := nodes s in
  let draggedId := Layout.id (geometry draggedNode) in
  let draggedPosition :=
    mkPosition (Layout.x (Layout.position (geometry draggedNode)))
               (Layout.y (Layout.position (geometry draggedNode))) in
  let otherIntersectingNodes :=
    filter (fun node =>
              negb (Layout.id (geometry node) =? draggedId)
              && Layout.isNodeIntersecting (geometry draggedNode) (geometry node))
           flowNodes in
  match otherIntersectingNodes with
  | newParentNode :: _ =>
      match raw draggedNode, raw newParentNode with
      | Some draggedRaw, Some newParentRaw =>
          let draggedNodeId := id draggedRaw in
          let newParentId := id newParentRaw in
          below <- walk (isDescendant fuel storeNodes draggedNodeId newParentId) ;;
          if negb (below : bool) then
            onNodeDragStop env draggedId draggedPosition ;;;
            reparentNode fuel env draggedNodeId newParentId
          else onNodeDragStop env draggedId draggedPosition
      | _, _ => onNodeDragStop env draggedId draggedPosition
      end
  | [] => onNodeDragStop env draggedId draggedPosition
  end.

(** The positions [handleAutoLayout] writes back (lines 288-294): each node
    the layout placed takes its new position, the others keep theirs. *)
Definition updatedStoreNodes (layouted : list (Layout.Node float))
    (dataToUse : list TreeNode) : list TreeNode :=
  map (fun item =>
         match find (fun n => Layout.id n =? id item) layouted with
         | Some layoutedNode =>
             mkTreeNode (id item) (label item) (description item)
               (parentId item)
               (mkPosition (Layout.x (Layout.position layoutedNode))
                           (Layout.y (Layout.position layoutedNode)))
         | None => item
         end)
      dataToUse.

(** [handleAutoLayout], lines 263-313, the store's side of it: [layouted] are
    the flow nodes as dagre placed them, [effective] the displayed nodes. The
    save is not awaited; a failure is logged by its [catch]. *)
Definition handleAutoLayout (env : Env) (layouted : list (Layout.Node float))
    (effective : list TreeNode) : M unit :=
  if (length layouted =? 0)%nat then ret tt
  else
    s <- get ;;
    let latestStoreNodes := nodes s in
    let dataToUse :=
      if (0 <? length latestStoreNodes)%nat then latestStoreNodes
      else effective in
    setNodes (updatedStoreNodes layouted dataToUse) ;;;
    try_catch (saveTreeToSupabase env) (fun _ => ret tt).

(** ** The node card ([src/components/CustomNode.tsx]) *)

(** [nodeLevel], lines 50-55, from [data.raw.parentId] and the store's nodes:
    0 for a root, 1 for a child of a root, 2 for anything else. *)
Definition nodeLevel (rawParentId : option string) (ns : list TreeNode) : nat :=
  match rawParentId with
  | None => 0
  | Some pid =>
      match findById pid ns with
      | Some parent => if isNull (parentId parent) then 1 else 2
      | None => 2
      end
  end.

(** [handleDelete], lines 148-156. *)
Definition handleDelete (fuel : nat) (env : Env) (node_id : string)
    (rawParentId : option string) : M unit :=
  let isRootNode := isNull rawParentId in
  if negb isRootNode then deleteNode fuel env node_id else ret tt.

(** [handleFocusToChild], lines 183-192. *)
Definition handleFocusToChild (fuel : nat) (node_id : string) : M unit :=
  s <- get ;;
  setFocusedNode (Some node_id) ;;;
  path <- walk (calculateBreadcrumbPath fuel node_id (nodes s)) ;;
  setBreadcrumbPath path.

(** [hasChildren], lines 196-198. *)
Definition hasChildren (node_id : string) (ns : list TreeNode) : bool :=
  existsb (fun node => strictEq (parentId node) node_id) ns.

(** ** The detail dialog ([src/components/NodeDetailDialog.tsx], 33-58) *)

(** The dialog's own climb from the selected node: each node met is put in
    front of the path; one unit of [fuel] is spent per parent looked up. *)
Fixpoint dialogLoop (fuel : nat) (ns : list TreeNode)
    (currentNode : option TreeNode) (path : list TreeNode) {struct fuel}
  : option (list TreeNode) :=
  match currentNode with
  | None => Some path
  | Some current =>
      let path' := current :: path in
      if truthy (parentId current) then
        match fuel with
        | O => None
        | S fuel' =>
            match parentId current with
            | None => Some path'
            | Some pid => dialogLoop fuel' ns (findById pid ns) path'
            end
        end
      else Some path'
  end.

Definition dialogBreadcrumbPath (fuel : nat) (selected : option TreeNode)
    (ns : list TreeNode) : option (list TreeNode) :=
  match selected with
  | None => Some []
  | Some sel =>
      if (length ns =? 0)%nat then Some []
      else dialogLoop fuel ns (Some sel) []
  end.

(** [BreadcrumbNavigation] renders nothing unless a node is focused and the
    breadcrumb path is not empty ([src/components/BreadcrumbNavigation.tsx],
    line 13). *)
Definition breadcrumbShown (s : StoreState) : bool :=
  truthy (focusedNodeId s) && negb (length (breadcrumbPath s) =? 0)%nat.

(** ** Vocabulary for the statements about the rest of the code *)

(** The store an action leaves behind, when it settles. *)
Definition finalStore {A} (o : Outcome A) : option StoreState :=
  match o with
  | Returns _ s => Some s
  | Throws _ s => Some s
  | Diverges => None
  end.

(** A remote store that answers an insertion with the row id ["tree-9"]. *)
Definition okInsert (_ _ : string) (_ : list TreeNode) : InsertAnswer :=
  mkInsertAnswer (Some "tree-9") None.

(** The three mutations that rewrite one field of a node. *)
Definition isFieldUpdate (m : Mutation) : bool :=
  match m with
  | UpdateNodeLabel _ _ | UpdateNodeDescription _ _ | OnNodeDragStop _ _ => true
  | _ => false
  end.

(** The card of a tree node when it has been dragged to [(px, py)]. *)
Definition cardAt (n : TreeNode) (px py : float) : FlowNode :=
  mkFlowNode (Layout.mkNode (id n) (Layout.mkXY px py) None None) (Some n).

(** * Properties *)

(** ** The rectangle test *)

(** C10. The node-rectangle intersection test is commutative: for every pair
    of layout nodes [a] and [b], over every number type,
    [isNodeIntersecting a b] and [isNodeIntersecting b a] are the same
    boolean. *)
Theorem isNodeIntersecting_comm :
  forall (num : Type) (N : Layout.Number num) (a b : Layout.Node num),
    Layout.isNodeIntersecting a b = Layout.isNodeIntersecting b a.
Proof.
  intros num N a b. unfold Layout.isNodeIntersecting, Layout.gt. cbv zeta.
  f_equal.
  rewrite <- !orb_assoc.
  set (p := Layout.lt (Layout.plus (Layout.x (Layout.position a)) _) _).
  set (q := Layout.lt (Layout.plus (Layout.x (Layout.position b)) _) _).
  set (r := Layout.lt (Layout.plus (Layout.y (Layout.position a)) _) _).
  set (t := Layout.lt (Layout.plus (Layout.y (Layout.position b)) _) _).
  destruct p, q, r, t; reflexivity.
Qed.

(** Two nodes of default size, 80 apart, touch on an edge and count as
    intersecting, in both orders. *)
Example isNodeIntersecting_touching :
  let a := Layout.mkNode "a" (Layout.mkXY 0 0)%float None None in
  let b := Layout.mkNode "b" (Layout.mkXY 80 0)%float (Some 0%float) None in
  Layout.isNodeIntersecting a b = true /\ Layout.isNodeIntersecting b a = true.
Proof. split; reflexivity. Qed.

(** ** Persisting a mutation *)

Lemma truthy_Some (t : string) : truthy (Some t) = true <-> t <> "".
Proof.
  unfold truthy. destruct (String.eqb_spec t ""); simpl; split; congruence.
Qed.

Lemma withNodes_same (s : StoreState) : withNodes s (nodes s) = s.
Proof. destruct s; reflexivity. Qed.

Lemma withNodes_twice (s : StoreState) (ns ns' : list TreeNode) :
  withNodes (withNodes s ns) ns' = withNodes s ns'.
Proof. reflexivity. Qed.

(** The tail every mutation ends with: publish the new array, save it, and
    on a rejected save put the snapshot back and rethrow. *)
Lemma persist_or_rollback (env : Env) (s : StoreState) (treeId : string)
    (updatedNodes : list TreeNode) :
  currentTreeId s = Some treeId -> treeId <> "" ->
  (set_nodes updatedNodes ;;;
   try_catch (saveTreeToSupabase env)
     (fun err => set_nodes (nodes s) ;;; throw err)) s
  = match supabase_update env treeId updatedNodes with
    | None => Returns tt (withNodes s updatedNodes)
    | Some err => Throws err s
    end.
Proof.
  intros Htree Hne.
  cbv [bind set_nodes try_catch saveTreeToSupabase get throw ret].
  cbn [currentTreeId nodes withNodes]. rewrite Htree.
  apply truthy_Some in Hne. rewrite Hne. cbn [negb].
  destruct (supabase_update env treeId updatedNodes); [|reflexivity].
  rewrite withNodes_twice, withNodes_same. reflexivity.
Qed.

Lemma selected_tree (s : StoreState) (treeId : string) :
  currentTreeId s = Some treeId -> treeId <> "" ->
  truthy (currentTreeId s) = true.
Proof. intros ->. apply truthy_Some. Qed.

(** Entering an action with a tree selected: read the store, pass the
    first test. *)
Ltac enter_action Htree Hne :=
  unfold bind at 1; unfold get;
  rewrite (selected_tree _ _ Htree Hne); cbn [negb].

(** What each action does once a tree is selected. *)

Lemma addNode_selected (env : Env) (s : StoreState) (treeId parent_id : string)
    (parentNode : TreeNode) :
  currentTreeId s = Some treeId -> treeId <> "" ->
  findById parent_id (nodes s) = Some parentNode ->
  let newNode :=
    mkTreeNode (randomUUID env) newNodeLabel None (Some parent_id)
      (mkPosition (x (position parentNode) + 50) (y (position parentNode) + 50)) in
  addNode env parent_id s
  = match supabase_update env treeId (nodes s ++ [newNode]) with
    | None => Returns tt (withNodes s (nodes s ++ [newNode]))
    | Some err => Throws err s
    end.
Proof.
  intros Htree Hne Hfind newNode.
  unfold addNode. enter_action Htree Hne. cbv zeta. rewrite Hfind.
  apply (persist_or_rollback env s treeId _ Htree Hne).
Qed.


Lemma deleteNode_selected (fuel : nat) (env : Env) (s : StoreState)
    (treeId node_id : string) (below : list string) :
  currentTreeId s = Some treeId -> treeId <> "" ->
  findChildren fuel (nodes s) node_id = Some below ->
  deleteNode fuel env node_id s
  = match supabase_update env treeId (prune node_id below (nodes s)) with
    | None => Returns tt (withNodes s (prune node_id below (nodes s)))
    | Some err => Throws err s
    end.
Proof.
  intros Htree Hne Hwalk.
  unfold deleteNode. enter_action Htree Hne.
  unfold bind at 1. rewrite Hwalk. cbn [walk].
  apply (persist_or_rollback env s treeId _ Htree Hne).
Qed.

Lemma deleteNode_diverges (fuel : nat) (env : Env) (s : StoreState)
    (treeId node_id : string) :
  currentTreeId s = Some treeId -> treeId <> "" ->
  findChildren fuel (nodes s) node_id = None ->
  deleteNode fuel env node_id s = Diverges.
Proof.
  intros Htree Hne Hwalk.
  unfold deleteNode. enter_action Htree Hne.
  unfold bind at 1. rewrite Hwalk. reflexivity.
Qed.

Lemma updateNodeLabel_selected (env : Env) (s : StoreState)
    (treeId node_id newLabel : string) :
  currentTreeId s = Some treeId -> treeId <> "" ->
  updateNodeLabel env node_id newLabel s
  = match supabase_update env treeId (relabel node_id newLabel (nodes s)) with
    | None => Returns tt (withNodes s (relabel node_id newLabel (nodes s)))
    | Some err => Throws err s
    end.
Proof.
  intros Htree Hne.
  unfold updateNodeLabel. enter_action Htree Hne.
  apply (persist_or_rollback env s treeId _ Htree Hne).
Qed.

Lemma updateNodeDescription_selected (env : Env) (s : StoreState)
    (treeId node_id newDescription : string) :
  currentTreeId s = Some treeId -> treeId <> "" ->
  updateNodeDescription env node_id newDescription s
  = match supabase_update env treeId
            (redescribe node_id newDescription (nodes s)) with
    | None =>
        Returns tt (withNodes s (redescribe node_id newDescription (nodes s)))
    | Some err => Throws err s
    end.
Proof.
  intros Htree Hne.
  unfold updateNodeDescription. enter_action Htree Hne.
  apply (persist_or_rollback env s treeId _ Htree Hne).
Qed.

Lemma reparentNode_selected (fuel : nat) (env : Env) (s : StoreState)
    (treeId node_id newParentId : string) (cyclic : bool) :
  currentTreeId s = Some treeId -> treeId <> "" ->
  isAncestor fuel (nodes s) node_id newParentId = Some cyclic ->
  reparentNode fuel env node_id newParentId s
  = if cyclic then Returns tt s
    else
      match supabase_update env treeId
              (reparent node_id newParentId (nodes s)) with
      | None =>
          Returns tt (withNodes s (reparent node_id newParentId (nodes s)))
      | Some err => Throws err s
      end.
Proof.
  intros Htree Hne Hwalk.
  unfold reparentNode. enter_action Htree Hne.
  unfold bind at 1. rewrite Hwalk. cbn [walk].
  destruct cyclic; [reflexivity|].
  apply (persist_or_rollback env s treeId _ Htree Hne).
Qed.

Lemma reparentNode_diverges (fuel : nat) (env : Env) (s : StoreState)
    (treeId node_id newParentId : string) :
  currentTreeId s = Some treeId -> treeId <> "" ->
  isAncestor fuel (nodes s) node_id newParentId = None ->
  reparentNode fuel env node_id newParentId s = Diverges.
Proof.
  intros Htree Hne Hwalk.
  unfold reparentNode. enter_action Htree Hne.
  unfold bind at 1. rewrite Hwalk. reflexivity.
Qed.

Lemma onNodeDragStop_selected (env : Env) (s : StoreState)
    (treeId node_id : string) (pos : Position) :
  currentTreeId s = Some treeId -> treeId <> "" ->
  onNodeDragStop env node_id pos s
  = match supabase_update env treeId (move node_id pos (nodes s)) with
    | None => Returns tt (withNodes s (move node_id pos (nodes s)))
    | Some err => Throws err s
    end.
Proof.
  intros Htree Hne.
  unfold onNodeDragStop. enter_action Htree Hne.
  apply (persist_or_rollback env s treeId _ Htree Hne).
Qed.

Lemma addNode_unresolved (env : Env) (s : StoreState) (parent_id : string) :
  findById parent_id (nodes s) = None -> addNode env parent_id s = Returns tt s.
Proof.
  intros Hfind.
  unfold addNode. unfold bind at 1. unfold get.
  destruct (truthy (currentTreeId s)); cbn [negb]; [|reflexivity].
  rewrite Hfind. reflexivity.
Qed.

(** With no tree selected every action returns at its first test. *)
Lemma perform_unselected (fuel : nat) (env : Env) (m : Mutation)
    (s : StoreState) :
  truthy (currentTreeId s) = false -> perform fuel env m s = Returns tt s.
Proof.
  intros Hnone.
  destruct m; cbn [perform];
    [ unfold addNode | unfold deleteNode | unfold updateNodeLabel
    | unfold updateNodeDescription | unfold reparentNode
    | unfold onNodeDragStop ];
    unfold bind at 1; unfold get; rewrite Hnone; reflexivity.
Qed.

(** ** Rollback when the save is refused *)

(** C4. Mutation atomicity under persistence failure: with a tree selected
    and a remote store that answers the write with the error [e], each of
    the six mutating actions, once past its own tests (the parent of
    [addNode] resolves, the walks of [deleteNode] and [reparentNode] finish,
    the latter finding no cycle), rejects with that same error [e] and leaves
    the store exactly as it was before the call. *)
Theorem save_failure_rolls_back :
  forall (fuel : nat) (env : Env) (s : StoreState) (treeId : string)
         (e : Error),
    currentTreeId s = Some treeId -> treeId <> "" ->
    (forall ns, supabase_update env treeId ns = Some e) ->
    (forall parent_id parentNode,
        findById parent_id (nodes s) = Some parentNode ->
        addNode env parent_id s = Throws e s) /\
    (forall node_id below,
        findChildren fuel (nodes s) node_id = Some below ->
        deleteNode fuel env node_id s = Throws e s) /\
    (forall node_id newLabel,
        updateNodeLabel env node_id newLabel s = Throws e s) /\
    (forall node_id newDescription,
        updateNodeDescription env node_id newDescription s = Throws e s) /\
    (forall node_id newParentId,
        isAncestor fuel (nodes s) node_id newParentId = Some false ->
        reparentNode fuel env node_id newParentId s = Throws e s) /\
    (forall node_id pos,
        onNodeDragStop env node_id pos s = Throws e s).
Proof.
  intros fuel env s treeId e Htree Hne Hfail.
  repeat split.
  - intros parent_id parentNode Hfind.
    rewrite (addNode_selected env s treeId parent_id parentNode Htree Hne Hfind).
    cbv zeta. rewrite Hfail. reflexivity.
  - intros node_id below Hwalk.
    rewrite (deleteNode_selected fuel env s treeId node_id below Htree Hne Hwalk).
    rewrite Hfail. reflexivity.
  - intros node_id newLabel.
    rewrite (updateNodeLabel_selected env s treeId _ _ Htree Hne).
    rewrite Hfail. reflexivity.
  - intros node_id newDescription.
    rewrite (updateNodeDescription_selected env s treeId _ _ Htree Hne).
    rewrite Hfail. reflexivity.
  - intros node_id newParentId Hwalk.
    rewrite (reparentNode_selected fuel env s treeId _ _ false Htree Hne Hwalk).
    rewrite Hfail. reflexivity.
  - intros node_id pos.
    rewrite (onNodeDragStop_selected env s treeId _ _ Htree Hne).
    rewrite Hfail. reflexivity.
Qed.

Lemma save_failure_rolls_back_witness :
  addNode failEnv "A" sampleStore = Throws "network error" sampleStore /\
  deleteNode 3 failEnv "A" sampleStore = Throws "network error" sampleStore /\
  reparentNode 3 failEnv "C" "B" sampleStore
  = Throws "network error" sampleStore.
Proof.
  assert (Hne : "tree-1" <> "") by discriminate.
  pose proof (save_failure_rolls_back 3 failEnv sampleStore "tree-1"
                "network error" eq_refl Hne (fun _ => eq_refl))
    as (Hadd & Hdel & _ & _ & Hrep & _).
  split; [|split].
  - exact (Hadd "A" nodeA eq_refl).
  - exact (Hdel "A" ["C"] eq_refl).
  - exact (Hrep "C" "B" eq_refl).
Defined.

(** Whatever the action and the state, a remote store that refuses every
    write never lets a mutation through: the store ends as it began, and a
    rejection carries the remote store's error. *)
Lemma save_failure_never_commits (fuel : nat) (env : Env) (e : Error)
    (m : Mutation) (s : StoreState) :
  (forall t ns, supabase_update env t ns = Some e) ->
  perform fuel env m s = Returns tt s \/
  perform fuel env m s = Throws e s \/
  perform fuel env m s = Diverges.
Proof.
  intros Hfail.
  destruct (truthy (currentTreeId s)) eqn:Hsel.
  2:{ left. apply perform_unselected. exact Hsel. }
  destruct (currentTreeId s) as [treeId|] eqn:Htree; [|discriminate].
  apply truthy_Some in Hsel.
  destruct m; cbn [perform].
  - destruct (findById parent_id (nodes s)) as [parentNode|] eqn:Hfind.
    + right; left.
      rewrite (addNode_selected env s treeId parent_id parentNode Htree Hsel Hfind).
      cbv zeta. rewrite Hfail. reflexivity.
    + left. apply addNode_unresolved. exact Hfind.
  - destruct (findChildren fuel (nodes s) node_id) as [below|] eqn:Hwalk.
    + right; left.
      rewrite (deleteNode_selected fuel env s treeId node_id below Htree Hsel Hwalk).
      rewrite Hfail. reflexivity.
    + right; right. apply (deleteNode_diverges fuel env s treeId); assumption.
  - right; left. rewrite (updateNodeLabel_selected env s treeId _ _ Htree Hsel).
    rewrite Hfail. reflexivity.
  - right; left.
    rewrite (updateNodeDescription_selected env s treeId _ _ Htree Hsel).
    rewrite Hfail. reflexivity.
  - destruct (isAncestor fuel (nodes s) node_id newParentId) as [cyclic|] eqn:Hwalk.
    + rewrite (reparentNode_selected fuel env s treeId _ _ cyclic Htree Hsel Hwalk).
      destruct cyclic; [left; reflexivity|right; left].
      rewrite Hfail. reflexivity.
    + right; right. apply (reparentNode_diverges fuel env s treeId); assumption.
  - right; left. rewrite (onNodeDragStop_selected env s treeId _ _ Htree Hsel).
    rewrite Hfail. reflexivity.
Qed.

(** ** [addNode] *)







(** ** Precondition failures *)

(** C9 (as amended). Every mutation invoked with no tree selected, and
    [addNode] invoked with a [parentId] that resolves to no node, returns
    without raising an error and without touching the store. *)
Theorem precondition_failure_aborts :
  forall (fuel : nat) (env : Env) (s : StoreState),
    (truthy (currentTreeId s) = false ->
     forall m, perform fuel env m s = Returns tt s) /\
    (forall parent_id,
        findById parent_id (nodes s) = None ->
        addNode env parent_id s = Returns tt s).
Proof.
  intros fuel env s. split.
  - intros Hnone m. apply perform_unselected. exact Hnone.
  - intros parent_id Hfind. apply addNode_unresolved. exact Hfind.
Qed.

Lemma precondition_failure_aborts_witness :
  perform 3 failEnv (DeleteNode "A") (storeOf None sampleNodes)
  = Returns tt (storeOf None sampleNodes) /\
  addNode failEnv "ghost" sampleStore = Returns tt sampleStore.
Proof.
  split.
  - exact (proj1 (precondition_failure_aborts 3 failEnv (storeOf None sampleNodes))
             eq_refl (DeleteNode "A")).
  - exact (proj2 (precondition_failure_aborts 3 failEnv sampleStore)
             "ghost" eq_refl).
Defined.

(** A node reference that resolves to nothing does not stop the other
    actions: [reparentNode] hangs the node under the missing id, and
    [updateNodeLabel] saves all the same and raises a failed save. *)
Lemma unresolved_reference_counterexample :
  findById "ghost" sampleNodes = None /\
  (exists s',
      reparentNode 3 okEnv "C" "ghost" sampleStore = Returns tt s' /\
      findById "C" (nodes s')
      = Some (mkTreeNode "C" "Loops" None (Some "ghost") (mkPosition 600 100)) /\
      nodes s' <> nodes sampleStore) /\
  updateNodeLabel failEnv "ghost" "renamed" sampleStore
  = Throws "network error" sampleStore.
Proof.
  split; [reflexivity|]. split.
  - eexists. split; [vm_compute; reflexivity|]. split; [reflexivity|].
    discriminate.
  - reflexivity.
Qed.

(** ** The focused view *)

(** C7. The view drawn for a focus id [f] over a node set:
    - when [f] is set and resolves to a node, that node followed by the nodes
      whose [parentId] is [f], one level only: one node more than [f] has
      direct children;
    - when [f] is unset and the node set has a root, the root followed by the
      nodes whose [parentId] is the root's id;
    - when [f] is set and resolves to nothing, the whole node set. *)
Theorem effectiveData_cases :
  forall (f : option string) (allNodes : list TreeNode),
    (forall fid focusNode,
        f = Some fid -> fid <> "" ->
        findById fid allNodes = Some focusNode ->
        effectiveData f allNodes
        = focusNode :: filter (fun n => strictEq (parentId n) fid) allNodes /\
        length (effectiveData f allNodes)
        = 1 + length (filter (fun n => strictEq (parentId n) fid) allNodes) /\
        (forall n, In n (tl (effectiveData f allNodes)) <->
                   In n allNodes /\ parentId n = Some fid)) /\
    (truthy f = false ->
     forall rootNode,
       find (fun n => isNull (parentId n)) allNodes = Some rootNode ->
       effectiveData f allNodes
       = rootNode :: filter (fun n => strictEq (parentId n) (id rootNode)) allNodes /\
       (forall n, In n (tl (effectiveData f allNodes)) <->
                  In n allNodes /\ parentId n = Some (id rootNode))) /\
    (forall fid,
        f = Some fid -> fid <> "" ->
        findById fid allNodes = None ->
        effectiveData f allNodes = allNodes).
Proof.
  intros f allNodes.
  assert (Hchildren : forall a n,
             In n (filter (fun n => strictEq (parentId n) a) allNodes) <->
             In n allNodes /\ parentId n = Some a).
  { intros a n. rewrite filter_In. unfold strictEq.
    destruct (parentId n) as [p|]; [|split; intros [? ?]; congruence].
    destruct (String.eqb_spec p a); split; intros [? ?]; split;
      congruence. }
  split; [|split].
  - intros fid focusNode -> Hne Hfind.
    assert (Hview : effectiveData (Some fid) allNodes
                    = focusNode :: filter (fun n => strictEq (parentId n) fid) allNodes).
    { unfold effectiveData, getFocusedNodes.
      apply truthy_Some in Hne. rewrite Hne. cbn [negb].
      rewrite Hfind. reflexivity. }
    rewrite Hview. split; [reflexivity|]. split; [reflexivity|].
    intros n. cbn [tl]. apply Hchildren.
  - intros Hunset rootNode Hroot.
    assert (Hview : effectiveData f allNodes
                    = rootNode :: filter (fun n => strictEq (parentId n) (id rootNode)) allNodes).
    { assert (Hdefault : effectiveData f allNodes = getDefaultFocusedNodes allNodes).
      { unfold effectiveData. destruct f; [rewrite Hunset|]; reflexivity. }
      rewrite Hdefault. unfold getDefaultFocusedNodes.
      destruct allNodes as [|n0 rest]; [discriminate Hroot|].
      cbn [length Nat.eqb]. rewrite Hroot. reflexivity. }
    rewrite Hview. split; [reflexivity|].
    intros n. cbn [tl]. apply Hchildren.
  - intros fid -> Hne Hfind.
    unfold effectiveData, getFocusedNodes.
    apply truthy_Some in Hne. rewrite Hne. cbn [negb].
    rewrite Hfind. reflexivity.
Qed.

(** Without a focus and without a root the view falls back to the whole
    node set. *)
Lemma effectiveData_without_root (f : option string) (allNodes : list TreeNode) :
  truthy f = false ->
  find (fun n => isNull (parentId n)) allNodes = None ->
  effectiveData f allNodes = allNodes.
Proof.
  intros Hunset Hnone.
  assert (Hdefault : effectiveData f allNodes = getDefaultFocusedNodes allNodes).
  { unfold effectiveData. destruct f; [rewrite Hunset|]; reflexivity. }
  rewrite Hdefault. unfold getDefaultFocusedNodes.
  destruct allNodes as [|n0 rest]; [reflexivity|].
  cbn [length Nat.eqb]. rewrite Hnone. reflexivity.
Qed.

Lemma effectiveData_cases_witness :
  effectiveData (Some "A") sampleNodes = [nodeA; nodeC] /\
  effectiveData None sampleNodes = [nodeR; nodeA; nodeB] /\
  effectiveData (Some "ghost") sampleNodes = sampleNodes.
Proof.
  split; [|split].
  - assert (Hne : "A" <> "") by discriminate.
    exact (proj1 (proj1 (effectiveData_cases (Some "A") sampleNodes)
                    "A" nodeA eq_refl Hne eq_refl)).
  - exact (proj1 (proj1 (proj2 (effectiveData_cases None sampleNodes))
                    eq_refl nodeR eq_refl)).
  - assert (Hne : "ghost" <> "") by discriminate.
    exact (proj2 (proj2 (effectiveData_cases (Some "ghost") sampleNodes))
             "ghost" eq_refl Hne eq_refl).
Defined.

(** ** Node sets with unique ids *)

Lemma unique_ids_inj (ns : list TreeNode) (a b : TreeNode) :
  unique_ids ns -> In a ns -> In b ns -> id a = id b -> a = b.
Proof.
  unfold unique_ids. induction ns as [|n ns IH]; cbn [map In].
  - contradiction.
  - intros Hnd Ha Hb Heq. inversion Hnd as [|? ? Hfresh Hrest]; subst.
    destruct Ha as [<-|Ha], Hb as [<-|Hb].
    + reflexivity.
    + exfalso. apply Hfresh. rewrite Heq. apply in_map. exact Hb.
    + exfalso. apply Hfresh. rewrite <- Heq. apply in_map. exact Ha.
    + apply IH; assumption.
Qed.

Lemma findById_In (ns : list TreeNode) (a : string) (n : TreeNode) :
  findById a ns = Some n -> In n ns /\ id n = a.
Proof.
  unfold findById. intros Hfind. apply find_some in Hfind as [Hin Heq].
  split; [exact Hin|]. apply String.eqb_eq. exact Heq.
Qed.

Lemma findById_unique (ns : list TreeNode) (n : TreeNode) :
  unique_ids ns -> In n ns -> findById (id n) ns = Some n.
Proof.
  intros Huniq Hin.
  destruct (findById (id n) ns) as [m|] eqn:Hfind.
  - apply findById_In in Hfind as [Hm Heq].
    f_equal. apply (unique_ids_inj ns); assumption.
  - unfold findById in Hfind.
    pose proof (find_none _ _ Hfind n Hin) as Hno. cbn beta in Hno.
    rewrite String.eqb_refl in Hno. discriminate.
Qed.

Lemma unique_ids_NoDup (ns : list TreeNode) : unique_ids ns -> List.NoDup ns.
Proof. apply NoDup_map_inv. Qed.

Lemma unique_ids_filter (keep : TreeNode -> bool) (ns : list TreeNode) :
  unique_ids ns -> unique_ids (filter keep ns).
Proof.
  unfold unique_ids. induction ns as [|n ns IH]; cbn [map filter].
  - trivial.
  - intros Hnd. inversion Hnd as [|? ? Hfresh Hrest]; subst.
    destruct (keep n); cbn [map]; [|apply IH; exact Hrest].
    constructor; [|apply IH; exact Hrest].
    intros Hin. apply Hfresh.
    apply in_map_iff in Hin as (m & Hid & Hm).
    apply filter_In in Hm as [Hm _].
    rewrite <- Hid. apply in_map. exact Hm.
Qed.

Lemma strictEq_true (v : option string) (a : string) :
  strictEq v a = true <-> v = Some a.
Proof.
  unfold strictEq. destruct v as [p|]; [|split; discriminate].
  destruct (String.eqb_spec p a); split; congruence.
Qed.

Lemma isNull_true (v : option string) : isNull v = true <-> v = None.
Proof. destruct v; cbn; split; congruence. Qed.

(** ** [findChildren], level by level *)

Lemma findChildren_gather (fuel : nat) (ns : list TreeNode) (a : string) :
  findChildren (S fuel) ns a = gather (findChildren fuel ns) a ns.
Proof.
  cbn [findChildren].
  set (step := fun (acc : option (list string)) (node : TreeNode) => _).
  assert (Hnone : forall l, fold_left step l None = None).
  { induction l as [|n l IH]; [reflexivity|exact IH]. }
  assert (Hfold : forall l acc,
             fold_left step l (Some acc)
             = match gather (findChildren fuel ns) a l with
               | Some found => Some (acc ++ found)
               | None => None
               end).
  { induction l as [|n l IH]; intros acc; cbn [fold_left gather].
    - rewrite app_nil_r. reflexivity.
    - unfold step at 2.
      destruct (strictEq (parentId n) a); [|apply IH].
      destruct (findChildren fuel ns (id n)) as [below|]; [|apply Hnone].
      rewrite IH.
      destruct (gather (findChildren fuel ns) a l) as [others|]; [|reflexivity].
      rewrite <- app_assoc. reflexivity. }
  rewrite Hfold. destruct (gather (findChildren fuel ns) a ns); reflexivity.
Qed.

Lemma gather_sound (sub : string -> option (list string)) (a : string)
    (l : list TreeNode) (found : list string) :
  gather sub a l = Some found ->
  forall i, In i found ->
    exists node, In node l /\ parentId node = Some a /\
      (i = id node \/ exists below, sub (id node) = Some below /\ In i below).
Proof.
  revert found. induction l as [|n l IH]; intros found; cbn [gather].
  - intros [= <-] i [].
  - destruct (strictEq (parentId n) a) eqn:Hchild.
    + destruct (sub (id n)) as [below|] eqn:Hsub; [|discriminate].
      destruct (gather sub a l) as [others|]; [|discriminate].
      intros [= <-] i [<-|Hin].
      * exists n. split; [left; reflexivity|].
        split; [apply strictEq_true; exact Hchild|left; reflexivity].
      * apply in_app_or in Hin as [Hin|Hin].
        -- exists n. split; [left; reflexivity|].
           split; [apply strictEq_true; exact Hchild|].
           right. exists below. split; [exact Hsub|exact Hin].
        -- destruct (IH others eq_refl i Hin) as (node & Hnode & Hrest).
           exists node. split; [right; exact Hnode|exact Hrest].
    + intros Hfound i Hin.
      destruct (IH found Hfound i Hin) as (node & Hnode & Hrest).
      exists node. split; [right; exact Hnode|exact Hrest].
Qed.

Lemma gather_complete (sub : string -> option (list string)) (a : string)
    (l : list TreeNode) (found : list string) :
  gather sub a l = Some found ->
  forall node, In node l -> parentId node = Some a ->
    In (id node) found /\
    exists below, sub (id node) = Some below /\ incl below found.
Proof.
  revert found. induction l as [|n l IH]; intros found; cbn [gather].
  - intros _ node [].
  - destruct (strictEq (parentId n) a) eqn:Hchild.
    + destruct (sub (id n)) as [below|] eqn:Hsub; [|discriminate].
      destruct (gather sub a l) as [others|]; [|discriminate].
      intros [= <-] node [<-|Hin] Hparent.
      * split; [left; reflexivity|].
        exists below. split; [exact Hsub|].
        intros i Hi. right. apply in_or_app. left. exact Hi.
      * destruct (IH others eq_refl node Hin Hparent) as (Hid & below' & Hsub' & Hincl).
        split; [right; apply in_or_app; right; exact Hid|].
        exists below'. split; [exact Hsub'|].
        intros i Hi. right. apply in_or_app. right. apply Hincl. exact Hi.
    + intros Hfound node [<-|Hin] Hparent.
      * apply strictEq_true in Hparent. congruence.
      * apply (IH found Hfound node Hin Hparent).
Qed.

Lemma gather_total (sub : string -> option (list string)) (a : string)
    (l : list TreeNode) :
  (forall node, In node l -> parentId node = Some a ->
                exists below, sub (id node) = Some below) ->
  exists found, gather sub a l = Some found.
Proof.
  induction l as [|n l IH]; intros Hsub; cbn [gather].
  - exists []. reflexivity.
  - destruct IH as [others Hothers].
    { intros node Hin. apply Hsub. right. exact Hin. }
    rewrite Hothers.
    destruct (strictEq (parentId n) a) eqn:Hchild.
    + apply strictEq_true in Hchild.
      destruct (Hsub n (or_introl eq_refl) Hchild) as [below ->].
      eexists. reflexivity.
    + exists others. reflexivity.
Qed.

Lemma gather_mono (sub1 sub2 : string -> option (list string)) (a : string)
    (l : list TreeNode) (found : list string) :
  (forall i below, sub1 i = Some below -> sub2 i = Some below) ->
  gather sub1 a l = Some found -> gather sub2 a l = Some found.
Proof.
  intros Hsub. revert found.
  induction l as [|n l IH]; intros found; cbn [gather]; [trivial|].
  destruct (strictEq (parentId n) a); [|apply IH].
  destruct (sub1 (id n)) as [below|] eqn:Hbelow; [|discriminate].
  rewrite (Hsub (id n) below Hbelow).
  destruct (gather sub1 a l) as [others|]; [|discriminate].
  rewrite (IH others eq_refl). trivial.
Qed.

(** More fuel does not change what [findChildren] returns. *)
Lemma findChildren_mono (ns : list TreeNode) :
  forall f1 f2 a found,
    f1 <= f2 -> findChildren f1 ns a = Some found ->
    findChildren f2 ns a = Some found.
Proof.
  induction f1 as [|f1 IH]; intros f2 a found Hle; [discriminate|].
  destruct f2 as [|f2]; [lia|].
  rewrite !findChildren_gather. apply gather_mono.
  intros i below. apply IH. lia.
Qed.

(** Everything [findChildren] returns is the id of a node strictly below
    [a]. *)
Lemma findChildren_sound (fuel : nat) (ns : list TreeNode) :
  forall a found,
    findChildren fuel ns a = Some found ->
    forall i, In i found ->
      exists m, In m ns /\ id m = i /\ descendant ns a m.
Proof.
  induction fuel as [|fuel IH]; intros a found Hfound i Hin.
  - discriminate.
  - rewrite findChildren_gather in Hfound.
    destruct (gather_sound _ _ _ _ Hfound i Hin)
      as (node & Hnode & Hparent & [->|(below & Hsub & Hbelow)]).
    + exists node. split; [exact Hnode|]. split; [reflexivity|].
      apply descendant_child; assumption.
    + destruct (IH (id node) below Hsub i Hbelow) as (m & Hm & Hid & Hdesc).
      exists m. split; [exact Hm|]. split; [exact Hid|].
      clear - Hdesc Hnode Hparent.
      induction Hdesc as [m Hm Hpar|m k _ IHk Hm Hpar].
      * apply (descendant_below ns a m node); [|exact Hm|exact Hpar].
        apply descendant_child; assumption.
      * apply (descendant_below ns a m k); assumption.
Qed.

(** Every node strictly below [a] is among the ids [findChildren] returns. *)
Lemma findChildren_complete (fuel : nat) (ns : list TreeNode) :
  forall a found,
    findChildren fuel ns a = Some found ->
    forall m, descendant ns a m -> In (id m) found.
Proof.
  assert (Hclosed : forall fuel a found,
             findChildren fuel ns a = Some found ->
             forall i, In i found ->
               forall m, In m ns -> parentId m = Some i -> In (id m) found).
  { clear fuel. induction fuel as [|fuel IH]; intros a found Hfound i Hin m Hm Hpar.
    - discriminate.
    - rewrite findChildren_gather in Hfound.
      destruct (gather_sound _ _ _ _ Hfound i Hin)
        as (node & Hnode & Hparent & [->|(below & Hsub & Hbelow)]);
        destruct (gather_complete _ _ _ _ Hfound node Hnode Hparent)
        as (_ & below' & Hsub' & Hincl).
      + apply Hincl.
        destruct fuel as [|fuel']; [discriminate|].
        rewrite findChildren_gather in Hsub'.
        apply (gather_complete _ _ _ _ Hsub' m Hm Hpar).
      + rewrite Hsub in Hsub'. injection Hsub' as <-.
        apply Hincl. apply (IH (id node) below Hsub i Hbelow m Hm Hpar). }
  intros a found Hfound m Hdesc.
  induction Hdesc as [m Hm Hpar|m k _ IHk Hm Hpar].
  - destruct fuel as [|fuel']; [discriminate|].
    rewrite findChildren_gather in Hfound.
    apply (gather_complete _ _ _ _ Hfound m Hm Hpar).
  - apply (Hclosed fuel a found Hfound (id k) IHk m Hm Hpar).
Qed.

(** ** What a fulfilled mutation leaves in the store *)

Lemma perform_Returns_inv (fuel : nat) (env : Env) (m : Mutation)
    (s s' : StoreState) :
  perform fuel env m s = Returns tt s' ->
  s' = s \/
  match m with
  | AddNode parent_id =>
      exists parentNode,
        findById parent_id (nodes s) = Some parentNode /\
        s' = withNodes s
               (nodes s ++
                [mkTreeNode (randomUUID env) newNodeLabel None (Some parent_id)
                   (mkPosition (x (position parentNode) + 50)
                               (y (position parentNode) + 50))])
  | DeleteNode node_id =>
      exists below,
        findChildren fuel (nodes s) node_id = Some below /\
        s' = withNodes s (prune node_id below (nodes s))
  | UpdateNodeLabel node_id newLabel =>
      s' = withNodes s (relabel node_id newLabel (nodes s))
  | UpdateNodeDescription node_id newDescription =>
      s' = withNodes s (redescribe node_id newDescription (nodes s))
  | ReparentNode node_id newParentId =>
      isAncestor fuel (nodes s) node_id newParentId = Some false /\
      s' = withNodes s (reparent node_id newParentId (nodes s))
  | OnNodeDragStop node_id pos =>
      s' = withNodes s (move node_id pos (nodes s))
  end.
Proof.
  intros Hrun.
  destruct (truthy (currentTreeId s)) eqn:Hsel.
  2:{ left. rewrite (perform_unselected fuel env m s Hsel) in Hrun.
      congruence. }
  destruct (currentTreeId s) as [treeId|] eqn:Htree; [|discriminate].
  apply truthy_Some in Hsel.
  destruct m; cbn [perform] in Hrun.
  - destruct (findById parent_id (nodes s)) as [parentNode|] eqn:Hfind.
    + rewrite (addNode_selected env s treeId parent_id parentNode Htree Hsel Hfind)
        in Hrun. cbv zeta in Hrun.
      destruct (supabase_update env treeId _); [discriminate|].
      right. exists parentNode. split; [reflexivity|congruence].
    + rewrite (addNode_unresolved env s parent_id Hfind) in Hrun.
      left. congruence.
  - destruct (findChildren fuel (nodes s) node_id) as [below|] eqn:Hwalk.
    + rewrite (deleteNode_selected fuel env s treeId node_id below Htree Hsel Hwalk)
        in Hrun.
      destruct (supabase_update env treeId _); [discriminate|].
      right. exists below. split; [reflexivity|congruence].
    + rewrite (deleteNode_diverges fuel env s treeId node_id Htree Hsel Hwalk)
        in Hrun. discriminate.
  - rewrite (updateNodeLabel_selected env s treeId _ _ Htree Hsel) in Hrun.
    destruct (supabase_update env treeId _); [discriminate|].
    right. congruence.
  - rewrite (updateNodeDescription_selected env s treeId _ _ Htree Hsel) in Hrun.
    destruct (supabase_update env treeId _); [discriminate|].
    right. congruence.
  - destruct (isAncestor fuel (nodes s) node_id newParentId) as [cyclic|] eqn:Hwalk.
    + rewrite (reparentNode_selected fuel env s treeId _ _ cyclic Htree Hsel Hwalk)
        in Hrun.
      destruct cyclic; [left; congruence|].
      destruct (supabase_update env treeId _); [discriminate|].
      right. split; [reflexivity|congruence].
    + rewrite (reparentNode_diverges fuel env s treeId _ _ Htree Hsel Hwalk)
        in Hrun. discriminate.
  - rewrite (onNodeDragStop_selected env s treeId _ _ Htree Hsel) in Hrun.
    destruct (supabase_update env treeId _); [discriminate|].
    right. congruence.
Qed.

(** ** The root count *)

Lemma roots_map (f : TreeNode -> TreeNode) (ns : list TreeNode) :
  (forall n, In n ns -> isNull (parentId (f n)) = isNull (parentId n)) ->
  length (roots (map f ns)) = length (roots ns).
Proof.
  intros Hsame. unfold roots.
  rewrite filter_map_swap, length_map.
  f_equal. apply filter_ext_in. exact Hsame.
Qed.

Lemma ids_map (f : TreeNode -> TreeNode) (ns : list TreeNode) :
  (forall n, id (f n) = id n) -> map id (map f ns) = map id ns.
Proof. intros Hsame. rewrite map_map. apply map_ext. exact Hsame. Qed.

Lemma isRootId_false (ns : list TreeNode) (a : string) (r : TreeNode) :
  isRootId ns a = false -> In r ns -> parentId r = None -> id r <> a.
Proof.
  unfold isRootId. intros Hnot Hin Hroot Heq.
  assert (Hyes : existsb (fun n => isNull (parentId n) && (id n =? a)) ns = true).
  { apply existsb_exists. exists r. split; [exact Hin|].
    rewrite Hroot, Heq, String.eqb_refl. reflexivity. }
  congruence.
Qed.

Lemma descendant_has_parent (ns : list TreeNode) (a : string) (m : TreeNode) :
  descendant ns a m -> In m ns /\ parentId m <> None.
Proof. intros [m' Hm Hpar|m' k _ Hm Hpar]; split; congruence. Qed.

(** Deleting below an id that is not the root's keeps every root. *)
Lemma prune_keeps_roots (fuel : nat) (ns : list TreeNode) (a : string)
    (below : list string) :
  unique_ids ns -> isRootId ns a = false ->
  findChildren fuel ns a = Some below ->
  roots (prune a below ns) = roots ns.
Proof.
  intros Huniq Hnot Hwalk. unfold roots, prune.
  set (keep := fun node : TreeNode => negb (bool_decide _)).
  assert (Hswap : forall l,
             filter (fun n => isNull (parentId n)) (filter keep l)
             = filter keep (filter (fun n => isNull (parentId n)) l)).
  { induction l as [|n l IH]; [reflexivity|]. cbn [filter].
    destruct (keep n) eqn:Hk, (isNull (parentId n)) eqn:Hr; cbn [filter];
      rewrite ?Hk, ?Hr, IH; reflexivity. }
  rewrite Hswap. apply forallb_filter_id. apply forallb_forall.
  intros r Hr. apply filter_In in Hr as [Hin Hroot].
  apply isNull_true in Hroot.
  unfold keep. apply negb_true_iff, bool_decide_eq_false.
  rewrite elem_of_list_to_set, list_elem_of_In. intros [Heq|Hbelow].
  - apply (isRootId_false ns a r Hnot Hin Hroot). symmetry. exact Heq.
  - destruct (findChildren_sound fuel ns a below Hwalk (id r) Hbelow)
      as (m & Hm & Hid & Hdesc).
    apply descendant_has_parent in Hdesc as [_ Hpar].
    assert (m = r) by (apply (unique_ids_inj ns); assumption).
    congruence.
Qed.

(** One fulfilled mutation that spares the root keeps the ids unique and the
    root count at one. *)
Lemma guarded_step_invariant (s s' : StoreState) :
  guarded_step s s' ->
  unique_ids (nodes s) /\ one_root (nodes s) ->
  unique_ids (nodes s') /\ one_root (nodes s').
Proof.
  intros [fuel env m Hsafe Hrun] [Huniq Hone].
  apply perform_Returns_inv in Hrun as [->|Hrun]; [split; assumption|].
  unfold one_root, unique_ids in *.
  destruct m; cbn [spares_root] in Hsafe.
  - destruct Hrun as (parentNode & _ & ->). cbn [nodes withNodes]. split.
    + rewrite map_app. cbn [map id].
      apply NoDup_app; [exact Huniq| |].
      * constructor; [intros []|constructor].
      * intros i Hi [<-|[]]. apply Hsafe. exact Hi.
    + unfold roots. rewrite filter_app. cbn [filter parentId isNull].
      rewrite app_nil_r. exact Hone.
  - destruct Hrun as (below & Hwalk & ->). cbn [nodes withNodes]. split.
    + apply unique_ids_filter. exact Huniq.
    + rewrite (prune_keeps_roots fuel (nodes s) node_id below Huniq Hsafe Hwalk).
      exact Hone.
  - subst s'. cbn [nodes withNodes]. unfold relabel. split.
    + rewrite ids_map; [exact Huniq|].
      intros n. destruct (id n =? node_id); reflexivity.
    + rewrite roots_map; [exact Hone|].
      intros n _. destruct (id n =? node_id); reflexivity.
  - subst s'. cbn [nodes withNodes]. unfold redescribe. split.
    + rewrite ids_map; [exact Huniq|].
      intros n. destruct (id n =? node_id); reflexivity.
    + rewrite roots_map; [exact Hone|].
      intros n _. destruct (id n =? node_id); reflexivity.
  - destruct Hrun as (_ & ->). cbn [nodes withNodes]. unfold reparent. split.
    + rewrite ids_map; [exact Huniq|].
      intros n. destruct (id n =? node_id); reflexivity.
    + rewrite roots_map; [exact Hone|].
      intros n Hin. destruct (String.eqb_spec (id n) node_id) as [Heq|Hne];
        [|reflexivity].
      cbn [parentId isNull]. destruct (parentId n) eqn:Hpar; [reflexivity|].
      exfalso. apply (isRootId_false (nodes s) node_id n Hsafe Hin Hpar Heq).
  - subst s'. cbn [nodes withNodes]. unfold move. split.
    + rewrite ids_map; [exact Huniq|].
      intros n. destruct (id n =? node_id); reflexivity.
    + rewrite roots_map; [exact Hone|].
      intros n _. destruct (id n =? node_id); reflexivity.
Qed.

(** C1 (as amended). Starting from a store whose node ids are unique and
    which has exactly one node with [parentId == null], after any sequence of
    fulfilled mutations in which [deleteNode] and [reparentNode] are never
    called on the root's id (and the UUID drawn by [addNode] is unused),
    exactly one node has [parentId == null]. *)
Theorem root_count_preserved :
  forall (s s' : StoreState),
    unique_ids (nodes s) -> one_root (nodes s) ->
    rtc guarded_step s s' ->
    one_root (nodes s').
Proof.
  intros s s' Huniq Hone Hsteps.
  assert (Hinv : unique_ids (nodes s') /\ one_root (nodes s')).
  { induction Hsteps as [s|s s1 s' Hstep _ IH].
    - split; assumption.
    - destruct (guarded_step_invariant s s1 Hstep (conj Huniq Hone)) as [H1 H2].
      apply IH; assumption. }
  exact (proj2 Hinv).
Qed.

Lemma sample_unique_ids : unique_ids sampleNodes.
Proof.
  unfold unique_ids. cbn [sampleNodes map id nodeR nodeA nodeB nodeC].
  apply NoDup_ListNoDup. apply (bool_decide_unpack _). vm_compute. exact I.
Qed.

Lemma sample_is_tree : is_tree sampleNodes.
Proof.
  assert (HR : depth sampleNodes nodeR 0).
  { apply depth_root; [left; reflexivity|reflexivity]. }
  assert (HA : depth sampleNodes nodeA 1).
  { apply (depth_child _ nodeA nodeR); [right; left; reflexivity|reflexivity|exact HR]. }
  assert (HB : depth sampleNodes nodeB 1).
  { apply (depth_child _ nodeB nodeR);
      [right; right; left; reflexivity|reflexivity|exact HR]. }
  assert (HC : depth sampleNodes nodeC 2).
  { apply (depth_child _ nodeC nodeA);
      [right; right; right; left; reflexivity|reflexivity|exact HA]. }
  split; [exact sample_unique_ids|]. split; [|split].
  - repeat constructor; discriminate.
  - reflexivity.
  - intros n [<-|[<-|[<-|[<-|[]]]]]; eexists; eassumption.
Qed.

Lemma root_count_preserved_witness :
  one_root [nodeR; nodeB].
Proof.
  apply (root_count_preserved sampleStore
           (withNodes sampleStore [nodeR; nodeB])).
  - exact sample_unique_ids.
  - reflexivity.
  - apply (rtc_l _ _ (withNodes sampleStore
                        (sampleNodes ++
                         [mkTreeNode "uuid-1" newNodeLabel None (Some "A")
                            (mkPosition 350 150)]))).
    + apply (guarded_step_intro _ _ 3 okEnv (AddNode "A")).
      * cbn. intros [H|[H|[H|[H|[]]]]]; discriminate H.
      * vm_compute. reflexivity.
    + apply rtc_once.
      apply (guarded_step_intro _ _ 3 okEnv (DeleteNode "A")).
      * reflexivity.
      * vm_compute. reflexivity.
Defined.

(** Deleting the root empties the node set: a tree with one root, one
    fulfilled [deleteNode], and no node with [parentId == null] is left. *)
Lemma root_deletion_counterexample :
  is_tree (nodes sampleStore) /\
  one_root (nodes sampleStore) /\
  mutation_step sampleStore (withNodes sampleStore []) /\
  roots (nodes (withNodes sampleStore [])) = [].
Proof.
  split; [exact sample_is_tree|]. split; [reflexivity|]. split; [|reflexivity].
  apply (mutation_step_intro _ _ 3 okEnv (DeleteNode "root")).
  vm_compute. reflexivity.
Qed.

(** Re-parenting the root under a missing id, or under itself, is not
    refused either and leaves no root. *)
Lemma root_reparent_example :
  (exists s', reparentNode 3 okEnv "root" "ghost" sampleStore = Returns tt s' /\
              roots (nodes s') = []) /\
  (exists s', reparentNode 3 okEnv "root" "root" sampleStore = Returns tt s' /\
              roots (nodes s') = []).
Proof. split; eexists; (split; [vm_compute; reflexivity|reflexivity]). Qed.

(** ** The upward walk *)

Lemma breadcrumbLoop_unfold (fuel : nat) (ns : list TreeNode)
    (current : TreeNode) (path : list TreeNode) :
  breadcrumbLoop fuel ns (Some current) path
  = if negb (truthy (parentId current)) then Some path
    else
      match fuel with
      | O => None
      | S fuel' =>
          match parentId current with
          | None => Some path
          | Some pid =>
              match findById pid ns with
              | Some parent => breadcrumbLoop fuel' ns (Some parent) (parent :: path)
              | None => Some path
              end
          end
      end.
Proof. destruct fuel; reflexivity. Qed.

Lemma parentStep_In (ns : list TreeNode) (c p : TreeNode) :
  parentStep ns c p -> In p ns.
Proof. intros (pid & _ & _ & Hfind). apply (findById_In ns pid p Hfind). Qed.

(** Without a cycle ahead, the walk visits each node at most once, so it is
    over before the fuel is: [visited] are the nodes already left behind. *)
Lemma breadcrumbLoop_terminates (ns : list TreeNode) (c0 : TreeNode) :
  acyclic_from ns c0 ->
  forall (fuel : nat) (current : TreeNode) (visited path : list TreeNode),
    rtc (parentStep ns) c0 current ->
    (forall v, In v visited -> tc (parentStep ns) v current) ->
    List.NoDup (current :: visited) ->
    incl (current :: visited) ns ->
    length ns < fuel + length (current :: visited) ->
    exists result, breadcrumbLoop fuel ns (Some current) path = Some result.
Proof.
  intros Hacyclic.
  induction fuel as [|fuel IH];
    intros current visited path Hreach Hbehind Hnodup Hincl Hfuel.
  - pose proof (NoDup_incl_length Hnodup Hincl). cbn [Nat.add] in Hfuel. lia.
  - rewrite breadcrumbLoop_unfold.
    destruct (truthy (parentId current)) eqn:Htruthy; cbn [negb];
      [|eexists; reflexivity].
    destruct (parentId current) as [pid|] eqn:Hpar; [|eexists; reflexivity].
    destruct (findById pid ns) as [parent|] eqn:Hfind; [|eexists; reflexivity].
    assert (Hstep : parentStep ns current parent).
    { exists pid. split; [exact Hpar|]. split; [|exact Hfind].
      apply truthy_Some. exact Htruthy. }
    assert (Hreach' : rtc (parentStep ns) c0 parent)
      by (eapply rtc_r; eassumption).
    assert (Hbehind' : forall v, In v (current :: visited) ->
                                 tc (parentStep ns) v parent).
    { intros v [<-|Hv].
      - apply tc_once. exact Hstep.
      - eapply tc_r; [apply Hbehind; exact Hv|exact Hstep]. }
    apply (IH parent (current :: visited) (parent :: path) Hreach' Hbehind').
    + constructor; [|exact Hnodup].
      intros Hseen. apply (Hacyclic parent Hreach'). apply Hbehind'. exact Hseen.
    + intros v [<-|Hv]; [apply (parentStep_In ns current); exact Hstep|].
      apply Hincl. exact Hv.
    + cbn [length] in *. lia.
Qed.

(** C6 (as amended). The code has no cap and raises no data-integrity
    error. For every node set in which the parent chain from [nodeId] does
    not run into a cycle, the walk of [calculateBreadcrumbPath] ends after at
    most as many iterations as there are nodes; where the chain does run into
    a cycle the walk never ends. *)
Theorem breadcrumb_walk_ends_without_cycle :
  forall (ns : list TreeNode) (nodeId : string),
    (forall c0, findById nodeId ns = Some c0 -> acyclic_from ns c0) ->
    forall fuel, length ns <= fuel ->
      exists path, calculateBreadcrumbPath fuel nodeId ns = Some path.
Proof.
  intros ns nodeId Hacyclic fuel Hfuel. unfold calculateBreadcrumbPath.
  destruct (findById nodeId ns) as [c0|] eqn:Hfind.
  - destruct (breadcrumbLoop_terminates ns c0 (Hacyclic c0 eq_refl)
                fuel c0 [] []) as [result ->].
    + apply rtc_refl.
    + intros v [].
    + constructor; [intros []|constructor].
    + intros v [<-|[]]. apply (findById_In ns nodeId). exact Hfind.
    + cbn [length]. lia.
    + eexists. reflexivity.
  - destruct fuel; eexists; reflexivity.
Qed.

(** On two nodes that name each other as parent the walk outlasts any
    amount of fuel: it returns no path, and no error either. *)
Lemma breadcrumb_cycle_counterexample :
  ~ exists fuel path, calculateBreadcrumbPath fuel "P" cyclicNodes = Some path.
Proof.
  assert (Hloop : forall fuel path,
             breadcrumbLoop fuel cyclicNodes
               (Some (mkTreeNode "P" "p" None (Some "Q") origin)) path = None /\
             breadcrumbLoop fuel cyclicNodes
               (Some (mkTreeNode "Q" "q" None (Some "P") origin)) path = None).
  { induction fuel as [|fuel IH]; intros path; [split; reflexivity|].
    split; rewrite breadcrumbLoop_unfold; cbn; apply IH. }
  intros (fuel & path & Hrun).
  unfold calculateBreadcrumbPath in Hrun.
  change (findById "P" cyclicNodes)
    with (Some (mkTreeNode "P" "p" None (Some "Q") origin)) in Hrun.
  rewrite (proj1 (Hloop fuel [])) in Hrun. discriminate.
Qed.

Lemma isAncestor_unfold (fuel : nat) (ns : list TreeNode) (a d : string) :
  isAncestor fuel ns a d
  = match findById d ns with
    | None => Some false
    | Some descendant =>
        match parentId descendant with
        | None => Some false
        | Some p =>
            if negb (truthy (Some p)) then Some false
            else if p =? a then Some true
            else
              match fuel with
              | O => None
              | S fuel' => isAncestor fuel' ns a p
              end
        end
    end.
Proof. destruct fuel; reflexivity. Qed.

(** The other two walks are no better guarded: on the same two nodes
    neither [isAncestor] nor [findChildren] ever answers. *)
Lemma walks_on_a_cycle :
  (forall fuel, isAncestor fuel cyclicNodes "root" "P" = None) /\
  (forall fuel, findChildren fuel cyclicNodes "P" = None).
Proof.
  split.
  - assert (Hboth : forall fuel,
               isAncestor fuel cyclicNodes "root" "P" = None /\
               isAncestor fuel cyclicNodes "root" "Q" = None).
    { induction fuel as [|fuel [IHP IHQ]]; [split; reflexivity|].
      split; rewrite isAncestor_unfold; cbn; assumption. }
    intros fuel. apply Hboth.
  - assert (Hboth : forall fuel,
               findChildren fuel cyclicNodes "P" = None /\
               findChildren fuel cyclicNodes "Q" = None).
    { induction fuel as [|fuel [IHP IHQ]]; [split; reflexivity|].
      split; rewrite findChildren_gather; cbn; rewrite ?IHP, ?IHQ; reflexivity. }
    intros fuel. apply Hboth.
Qed.

(** ** Trees *)

Lemma depth_In (ns : list TreeNode) (n : TreeNode) (d : nat) :
  depth ns n d -> In n ns.
Proof. intros [n' Hin _|n' p d' Hin _ _]; exact Hin. Qed.

Section UniqueIds.

Variable ns : list TreeNode.
Hypothesis Huniq : unique_ids ns.

(** The depth of a child is one more than the depth of its parent. *)
Lemma depth_parent (n p : TreeNode) (d : nat) :
  In p ns -> parentId n = Some (id p) -> depth ns n d ->
  exists d', d = S d' /\ depth ns p d'.
Proof.
  intros Hp Hpar Hd.
  destruct Hd as [n Hin Hroot|n p' d' Hin Hpar' Hd']; [congruence|].
  exists d'. split; [reflexivity|].
  assert (p' = p); [|subst; exact Hd'].
  apply (unique_ids_inj ns); [exact Huniq|apply (depth_In ns p' d' Hd')|exact Hp|].
  congruence.
Qed.

(** A node has one depth. *)
Lemma depth_fun (n : TreeNode) (d d' : nat) :
  depth ns n d -> depth ns n d' -> d = d'.
Proof.
  intros Hd. revert d'.
  induction Hd as [n Hin Hroot|n p d Hin Hpar Hd IH]; intros d' Hd'.
  - destruct Hd' as [n _ _|n p' d' _ Hpar' _]; [reflexivity|congruence].
  - destruct (depth_parent n p d' (depth_In ns p d Hd) Hpar Hd')
      as (d'' & -> & Hd'').
    f_equal. apply IH. exact Hd''.
Qed.

(** Each iteration of the upward walk goes up one level. *)
Lemma parentStep_depth (c p : TreeNode) (d : nat) :
  parentStep ns c p -> depth ns c d ->
  exists d', d = S d' /\ depth ns p d'.
Proof.
  intros (pid & Hpar & _ & Hfind) Hd.
  apply findById_In in Hfind as [Hp <-].
  apply (depth_parent c p d Hp Hpar Hd).
Qed.

Lemma tc_parentStep_depth (c c' : TreeNode) :
  tc (parentStep ns) c c' ->
  forall d, depth ns c d -> exists d', d' < d /\ depth ns c' d'.
Proof.
  intros Htc.
  induction Htc as [c c' Hstep|c c1 c' Hstep _ IH]; intros d Hd.
  - destruct (parentStep_depth c c' d Hstep Hd) as (d' & -> & Hd').
    exists d'. split; [lia|exact Hd'].
  - destruct (parentStep_depth c c1 d Hstep Hd) as (d1 & -> & Hd1).
    destruct (IH d1 Hd1) as (d' & Hlt & Hd').
    exists d'. split; [lia|exact Hd'].
Qed.

End UniqueIds.

Lemma tc_parentStep_In (ns : list TreeNode) (c c' : TreeNode) :
  tc (parentStep ns) c c' -> In c' ns.
Proof.
  induction 1 as [c c' Hstep|c c1 c' _ _ IH];
    [apply (parentStep_In ns c c' Hstep)|exact IH].
Qed.

(** In a tree no walk runs into a cycle. *)
Lemma tree_acyclic (ns : list TreeNode) (c0 : TreeNode) :
  is_tree ns -> acyclic_from ns c0.
Proof.
  intros (Huniq & _ & _ & Hdepth) c _ Hcycle.
  destruct (Hdepth c (tc_parentStep_In ns c c Hcycle)) as [d Hd].
  destruct (tc_parentStep_depth ns Huniq c c Hcycle d Hd) as (d' & Hlt & Hd').
  pose proof (depth_fun ns Huniq c d d' Hd Hd'). lia.
Qed.

Lemma breadcrumb_walk_ends_without_cycle_witness :
  exists path, calculateBreadcrumbPath 4 "C" sampleNodes = Some path.
Proof.
  apply (breadcrumb_walk_ends_without_cycle sampleNodes "C").
  - intros c0 _. apply tree_acyclic. exact sample_is_tree.
  - cbn. lia.
Defined.

(** ** The breadcrumb path of a tree node *)

Lemma linked_snoc (l : list TreeNode) (a b : TreeNode) :
  linked (l ++ [a]) -> parentId b = Some (id a) -> linked ((l ++ [a]) ++ [b]).
Proof.
  intros Hl Hpar. induction l as [|h l IH].
  - cbn. split; [exact Hpar|exact I].
  - destruct l as [|h' l].
    + cbn in *. destruct Hl as [Hl _]. repeat split; assumption.
    + cbn [app linked] in *. destruct Hl as [Hh Hl].
      split; [exact Hh|]. apply IH. exact Hl.
Qed.

(** From a node at depth [d] the loop climbs [d] times and leaves the [d]
    proper ancestors, root first, in front of the path it was given. *)
Lemma breadcrumbLoop_ancestors (ns : list TreeNode) :
  unique_ids ns -> proper_ids ns ->
  forall c d, depth ns c d ->
    exists ancestors,
      length ancestors = d /\
      linked (ancestors ++ [c]) /\
      (exists r rest, ancestors ++ [c] = r :: rest /\
                      In r ns /\ parentId r = None) /\
      forall fuel path, d <= fuel ->
        breadcrumbLoop fuel ns (Some c) path = Some (ancestors ++ path).
Proof.
  intros Huniq Hproper c d Hd.
  induction Hd as [c Hin Hroot|c p d Hin Hpar Hd IH].
  - exists []. split; [reflexivity|]. split; [exact I|]. split.
    + exists c, []. repeat split; assumption.
    + intros fuel path _. rewrite breadcrumbLoop_unfold, Hroot. reflexivity.
  - destruct IH as (ancestors & Hlen & Hlinked & (r & rest & Hhead & Hr & Hrroot) & Hloop).
    exists (ancestors ++ [p]). split; [|split; [|split]].
    + rewrite length_app. cbn [length]. lia.
    + apply linked_snoc; assumption.
    + exists r, (rest ++ [c]). rewrite Hhead. repeat split; assumption.
    + intros fuel path Hfuel.
      destruct fuel as [|fuel]; [lia|].
      rewrite breadcrumbLoop_unfold, Hpar.
      assert (Hp : In p ns) by apply (depth_In ns p d Hd).
      assert (Hne : id p <> "").
      { unfold proper_ids in Hproper. rewrite Forall_forall in Hproper.
        apply Hproper. exact Hp. }
      apply truthy_Some in Hne. rewrite Hne. cbn [negb].
      rewrite (findById_unique ns p Huniq Hp).
      rewrite Hloop by lia. rewrite <- app_assoc. reflexivity.
Qed.

(** C5. In a node set forming a tree, for a node [n] at depth [d],
    [calculateBreadcrumbPath] returns (given fuel for [d] iterations) a path
    of exactly [d + 1] nodes that starts at the root, ends in [n], and in
    which each node is the parent of the next. *)
Theorem breadcrumb_path_of_tree_node :
  forall (ns : list TreeNode) (n : TreeNode) (d : nat),
    is_tree ns -> depth ns n d ->
    exists path,
      (forall fuel, d <= fuel ->
                    calculateBreadcrumbPath fuel (id n) ns = Some path) /\
      length path = S d /\
      (exists r rest, path = r :: rest /\ roots ns = [r]) /\
      (exists front, path = front ++ [n]) /\
      linked path.
Proof.
  intros ns n d (Huniq & Hproper & Hone & _) Hd.
  destruct (breadcrumbLoop_ancestors ns Huniq Hproper n d Hd)
    as (ancestors & Hlen & Hlinked & (r & rest & Hhead & Hr & Hrroot) & Hloop).
  exists (ancestors ++ [n]). split; [|split; [|split; [|split]]].
  - intros fuel Hfuel. unfold calculateBreadcrumbPath.
    rewrite (findById_unique ns n Huniq (depth_In ns n d Hd)).
    rewrite (Hloop fuel [] Hfuel), app_nil_r. reflexivity.
  - rewrite length_app. cbn [length]. lia.
  - exists r, rest. split; [exact Hhead|].
    unfold one_root in Hone.
    assert (Hmem : In r (roots ns)).
    { apply filter_In. split; [exact Hr|]. rewrite Hrroot. reflexivity. }
    destruct (roots ns) as [|r0 [|r1 more]]; [discriminate| |discriminate].
    destruct Hmem as [->|[]]. reflexivity.
  - exists ancestors. reflexivity.
  - exact Hlinked.
Qed.

Lemma sample_depth_C : depth sampleNodes nodeC 2.
Proof.
  apply (depth_child _ nodeC nodeA);
    [right; right; right; left; reflexivity|reflexivity|].
  apply (depth_child _ nodeA nodeR); [right; left; reflexivity|reflexivity|].
  apply depth_root; [left; reflexivity|reflexivity].
Qed.

Lemma breadcrumb_path_of_tree_node_witness :
  exists path,
    (forall fuel, 2 <= fuel ->
                  calculateBreadcrumbPath fuel "C" sampleNodes = Some path) /\
    length path = 3 /\
    (exists r rest, path = r :: rest /\ roots sampleNodes = [r]) /\
    (exists front, path = front ++ [nodeC]) /\
    linked path.
Proof.
  exact (breadcrumb_path_of_tree_node sampleNodes nodeC 2
           sample_is_tree sample_depth_C).
Defined.

Example breadcrumb_path_sample :
  calculateBreadcrumbPath 2 "C" sampleNodes = Some [nodeR; nodeA; nodeC].
Proof. reflexivity. Qed.

(** ** [deleteNode] on a tree *)

(** A node at depth [d] has [d] distinct ancestors in the node set, so no
    node is as deep as the node set is long. *)
Lemma depth_lt_length (ns : list TreeNode) (n : TreeNode) (d : nat) :
  unique_ids ns -> depth ns n d -> d < length ns.
Proof.
  intros Huniq Hd.
  assert (Hchain : exists chain,
             List.NoDup chain /\ incl chain ns /\ length chain = S d /\
             forall c, In c chain -> exists dc, dc <= d /\ depth ns c dc).
  { induction Hd as [n Hin Hroot|n p d Hin Hpar Hd IH].
    - exists [n]. split; [constructor; [intros []|constructor]|].
      split; [intros c [<-|[]]; exact Hin|]. split; [reflexivity|].
      intros c [<-|[]]. exists 0. split; [lia|].
      apply depth_root; assumption.
    - destruct IH as (chain & Hnodup & Hincl & Hlen & Hdepths).
      exists (n :: chain). split; [|split; [|split]].
      + constructor; [|exact Hnodup]. intros Hmem.
        destruct (Hdepths n Hmem) as (dc & Hle & Hdc).
        pose proof (depth_fun ns Huniq n dc (S d) Hdc
                      (depth_child ns n p d Hin Hpar Hd)). lia.
      + intros c [<-|Hc]; [exact Hin|apply Hincl; exact Hc].
      + cbn [length]. lia.
      + intros c [<-|Hc].
        * exists (S d). split; [lia|]. apply (depth_child ns n p d); assumption.
        * destruct (Hdepths c Hc) as (dc & Hle & Hdc).
          exists dc. split; [lia|exact Hdc]. }
  destruct Hchain as (chain & Hnodup & Hincl & Hlen & _).
  pose proof (NoDup_incl_length Hnodup Hincl). lia.
Qed.

(** On a tree the recursion of [findChildren] is as deep as the tree below
    the node, no deeper. *)
Lemma findChildren_total (ns : list TreeNode) (H : nat) :
  is_tree ns -> (forall n d, depth ns n d -> d <= H) ->
  forall fuel a,
    (forall m, In m ns -> parentId m = Some a ->
               forall d, depth ns m d -> H < d + fuel) ->
    exists found, findChildren (S fuel) ns a = Some found.
Proof.
  intros (Huniq & _ & _ & Hdepth) Hbound.
  induction fuel as [|fuel IH]; intros a Hroom;
    rewrite findChildren_gather; apply gather_total; intros node Hin Hpar.
  - exfalso. destruct (Hdepth node Hin) as [d Hd].
    pose proof (Hroom node Hin Hpar d Hd). pose proof (Hbound node d Hd). lia.
  - apply IH. intros m Hm Hparm d Hd.
    destruct (depth_parent ns Huniq m node d Hin Hparm Hd) as (d' & -> & Hd').
    pose proof (Hroom node Hin Hpar d' Hd'). lia.
Qed.

(** C3. In a store whose node set forms a tree, [deleteNode] on the id of a
    node [n] (a tree selected, the save going through, fuel for the walk)
    removes [n] and every node below it and nothing else: the nodes left are
    those that are neither [n] nor a descendant of [n], and their number is
    the number before minus the number of nodes in {n} and its descendants. *)
Theorem deleteNode_removes_subtree :
  forall (env : Env) (s : StoreState) (treeId : string) (n : TreeNode),
    currentTreeId s = Some treeId -> treeId <> "" ->
    is_tree (nodes s) -> In n (nodes s) ->
    (forall ns, supabase_update env treeId ns = None) ->
    exists s',
      (forall fuel, length (nodes s) <= fuel ->
                    deleteNode fuel env (id n) s = Returns tt s') /\
      (forall m, In m (nodes s') <->
                 In m (nodes s) /\ m <> n /\ ~ descendant (nodes s) (id n) m) /\
      exists removed,
        List.NoDup removed /\
        (forall m, In m removed <-> m = n \/ descendant (nodes s) (id n) m) /\
        length (nodes s') = length (nodes s) - length removed.
Proof.
  intros env s treeId n Htree Hne Hwf Hn Hok.
  pose proof Hwf as (Huniq & _).
  set (H := length (nodes s) - 1).
  assert (Hsize : length (nodes s) = S H).
  { unfold H. destruct (nodes s); [destruct Hn|cbn [length]; lia]. }
  assert (Hbound : forall m d, depth (nodes s) m d -> d <= H).
  { intros m d Hd. pose proof (depth_lt_length (nodes s) m d Huniq Hd). lia. }
  destruct (findChildren_total (nodes s) H Hwf Hbound H (id n)) as [below Hwalk].
  { intros m _ Hpar d Hd.
    destruct Hd as [m _ Hroot|m p d _ _ _]; [congruence|lia]. }
  exists (withNodes s (prune (id n) below (nodes s))). split.
  { intros fuel Hfuel. rewrite Hsize in Hfuel.
    pose proof (findChildren_mono (nodes s) (S H) fuel (id n) below Hfuel Hwalk)
      as Hwalk'.
    rewrite (deleteNode_selected fuel env s treeId (id n) below Htree Hne Hwalk').
    rewrite Hok. reflexivity. }
  cbn [nodes withNodes]. unfold prune.
  set (keep := fun node : TreeNode => negb (bool_decide _)).
  assert (Hkeep : forall m, In m (nodes s) ->
             keep m = false <-> m = n \/ descendant (nodes s) (id n) m).
  { intros m Hm. unfold keep.
    rewrite negb_false_iff, bool_decide_eq_true.
    rewrite elem_of_list_to_set, list_elem_of_In. cbn [In]. split.
    - intros [Heq|Hbelow].
      + left. apply (unique_ids_inj (nodes s)); [assumption..|]. congruence.
      + right.
        destruct (findChildren_sound _ _ _ _ Hwalk (id m) Hbelow)
          as (m' & Hm' & Hid & Hdesc).
        assert (m' = m) by (apply (unique_ids_inj (nodes s)); assumption).
        subst m'. exact Hdesc.
    - intros [->|Hdesc]; [left; reflexivity|right].
      apply (findChildren_complete _ _ _ _ Hwalk m Hdesc). }
  split.
  - intros m. rewrite filter_In. split.
    + intros [Hm Hk]. split; [exact Hm|].
      assert (Hnot : ~ (m = n \/ descendant (nodes s) (id n) m)).
      { intros Hrem. apply (Hkeep m Hm) in Hrem. congruence. }
      split; intros ?; apply Hnot; [left|right]; assumption.
    + intros (Hm & Hneq & Hnd). split; [exact Hm|].
      destruct (keep m) eqn:Hk; [reflexivity|].
      apply (Hkeep m Hm) in Hk as [?|?]; contradiction.
  - exists (filter (fun m => negb (keep m)) (nodes s)). split; [|split].
    + apply NoDup_filter. apply unique_ids_NoDup. exact Huniq.
    + intros m. rewrite filter_In, negb_true_iff. split.
      * intros [Hm Hk]. apply (Hkeep m Hm). exact Hk.
      * intros Hrem.
        assert (Hm : In m (nodes s)).
        { destruct Hrem as [->|Hdesc]; [exact Hn|].
          apply (descendant_has_parent _ _ _ Hdesc). }
        split; [exact Hm|]. apply (Hkeep m Hm). exact Hrem.
    + pose proof (filter_length keep (nodes s)). lia.
Qed.

Lemma deleteNode_removes_subtree_witness :
  exists s',
    (forall fuel, 4 <= fuel ->
                  deleteNode fuel okEnv "A" sampleStore = Returns tt s') /\
    (forall m, In m (nodes s') <->
               In m sampleNodes /\ m <> nodeA /\ ~ descendant sampleNodes "A" m) /\
    exists removed,
      List.NoDup removed /\
      (forall m, In m removed <-> m = nodeA \/ descendant sampleNodes "A" m) /\
      length (nodes s') = 4 - length removed.
Proof.
  assert (Hne : "tree-1" <> "") by discriminate.
  assert (HA : In nodeA sampleNodes) by (right; left; reflexivity).
  exact (deleteNode_removes_subtree okEnv sampleStore "tree-1" nodeA
           eq_refl Hne sample_is_tree HA (fun _ => eq_refl)).
Defined.

Example deleteNode_sample :
  deleteNode 2 okEnv "A" sampleStore
  = Returns tt (withNodes sampleStore [nodeR; nodeB]).
Proof. vm_compute. reflexivity. Qed.

(** ** [reparentNode] on a tree *)

(** [isAncestor] answers [true] only for a node strictly below [a]. *)
Lemma isAncestor_sound (ns : list TreeNode) (a : string) :
  forall fuel d,
    isAncestor fuel ns a d = Some true ->
    exists m, findById d ns = Some m /\ descendant ns a m.
Proof.
  induction fuel as [|fuel IH]; intros d; rewrite isAncestor_unfold;
    destruct (findById d ns) as [m|] eqn:Hfind; try discriminate;
    destruct (parentId m) as [p|] eqn:Hpar; try discriminate;
    destruct (negb (truthy (Some p))); try discriminate;
    destruct (String.eqb_spec p a) as [->|Hne]; try discriminate;
    intros Hrun; exists m; (split; [reflexivity|]).
  - apply descendant_child; [apply (findById_In ns d m Hfind)|exact Hpar].
  - apply descendant_child; [apply (findById_In ns d m Hfind)|exact Hpar].
  - destruct (IH p Hrun) as (k & Hk & Hdesc).
    apply findById_In in Hk as [_ <-].
    apply (descendant_below ns a m k);
      [exact Hdesc|apply (findById_In ns d m Hfind)|exact Hpar].
Qed.

(** On a tree it answers [true] for every node strictly below a node with a
    proper id. *)
Lemma isAncestor_complete (ns : list TreeNode) (a : string) (m : TreeNode) :
  is_tree ns -> a <> "" -> descendant ns a m ->
  exists fuel0, forall fuel, fuel0 <= fuel ->
    isAncestor fuel ns a (id m) = Some true.
Proof.
  intros (Huniq & Hproper & _ & _) Ha Hdesc.
  unfold proper_ids in Hproper. rewrite Forall_forall in Hproper.
  induction Hdesc as [m Hm Hpar|m k Hk IH Hm Hpar].
  - exists 0. intros fuel _. rewrite isAncestor_unfold.
    rewrite (findById_unique ns m Huniq Hm), Hpar.
    apply truthy_Some in Ha. rewrite Ha. cbn [negb].
    rewrite String.eqb_refl. reflexivity.
  - destruct IH as [fuel0 IH]. exists (S fuel0). intros fuel Hfuel.
    destruct fuel as [|fuel]; [lia|].
    rewrite isAncestor_unfold.
    rewrite (findById_unique ns m Huniq Hm), Hpar.
    assert (Hne : id k <> "").
    { apply Hproper. apply (descendant_has_parent ns a k Hk). }
    apply truthy_Some in Hne. rewrite Hne. cbn [negb].
    destruct (id k =? a); [reflexivity|]. apply IH. lia.
Qed.

(** On a tree the walk of [isAncestor] from a node at depth [d] is over
    within [d] calls. *)
Lemma isAncestor_total (ns : list TreeNode) (a : string) :
  is_tree ns ->
  forall m d, depth ns m d ->
    forall fuel, d <= fuel ->
      exists answer, isAncestor fuel ns a (id m) = Some answer.
Proof.
  intros (Huniq & _ & _ & _) m d Hd.
  induction Hd as [m Hm Hroot|m p d Hm Hpar Hd IH]; intros fuel Hfuel;
    rewrite isAncestor_unfold, (findById_unique ns m Huniq Hm).
  - rewrite Hroot. eexists. reflexivity.
  - rewrite Hpar.
    destruct (negb (truthy (Some (id p)))); [eexists; reflexivity|].
    destruct (id p =? a); [eexists; reflexivity|].
    destruct fuel as [|fuel]; [lia|]. apply IH. lia.
Qed.

(** More fuel does not change an answer. *)
Lemma isAncestor_mono (ns : list TreeNode) (a : string) :
  forall f1 f2 d answer,
    f1 <= f2 -> isAncestor f1 ns a d = Some answer ->
    isAncestor f2 ns a d = Some answer.
Proof.
  induction f1 as [|f1 IH]; intros f2 d answer Hle;
    rewrite (isAncestor_unfold _ ns a d);
    rewrite (isAncestor_unfold f2 ns a d);
    destruct (findById d ns) as [m|]; try (intros; assumption);
    destruct (parentId m) as [q|]; try (intros; assumption);
    destruct (negb (truthy (Some q))); try (intros; assumption);
    destruct (q =? a); try (intros; assumption).
  - discriminate.
  - destruct f2 as [|f2]; [lia|]. apply IH. lia.
Qed.

(** What [reparentNode] does on a tree, both ids present: it refuses, the
    store untouched, exactly when the new parent lies strictly below the
    node; in every other case, the new parent being the node itself
    included, it rewrites the node's [parentId]. *)
Lemma reparentNode_on_tree (env : Env) (s : StoreState) (treeId : string)
    (n p : TreeNode) :
  currentTreeId s = Some treeId -> treeId <> "" ->
  is_tree (nodes s) -> In n (nodes s) -> In p (nodes s) ->
  (forall ns, supabase_update env treeId ns = None) ->
  forall fuel, length (nodes s) <= fuel ->
    (descendant (nodes s) (id n) p ->
     reparentNode fuel env (id n) (id p) s = Returns tt s) /\
    (~ descendant (nodes s) (id n) p ->
     reparentNode fuel env (id n) (id p) s
     = Returns tt (withNodes s (reparent (id n) (id p) (nodes s)))).
Proof.
  intros Htree Hne Hwf Hn Hp Hok fuel Hfuel.
  pose proof Hwf as (Huniq & Hproper & _ & Hdepth).
  destruct (Hdepth p Hp) as [d Hd].
  pose proof (depth_lt_length (nodes s) p d Huniq Hd) as Hshallow.
  assert (Hroom : d <= fuel) by lia.
  destruct (isAncestor_total (nodes s) (id n) Hwf p d Hd fuel Hroom)
    as [answer Hwalk].
  rewrite (reparentNode_selected fuel env s treeId _ _ answer Htree Hne Hwalk).
  rewrite Hok. split.
  - intros Hdesc. destruct answer; [reflexivity|]. exfalso.
    assert (Hnid : id n <> "").
    { unfold proper_ids in Hproper. rewrite Forall_forall in Hproper.
      apply Hproper. exact Hn. }
    destruct (isAncestor_complete (nodes s) (id n) p Hwf Hnid Hdesc)
      as [fuel0 Htrue].
    pose proof (isAncestor_mono (nodes s) (id n) fuel (Nat.max fuel fuel0)
                  (id p) false (Nat.le_max_l _ _) Hwalk) as Hfalse.
    rewrite Htrue in Hfalse by lia. discriminate.
  - intros Hnot. destruct answer; [|reflexivity]. exfalso. apply Hnot.
    destruct (isAncestor_sound (nodes s) (id n) fuel (id p) Hwalk)
      as (m & Hm & Hdesc).
    rewrite (findById_unique (nodes s) p Huniq Hp) in Hm.
    injection Hm as <-. exact Hdesc.
Qed.

(** A node of a tree is never strictly below itself. *)
Lemma descendant_deeper (ns : list TreeNode) (n m : TreeNode) :
  unique_ids ns -> In n ns -> descendant ns (id n) m ->
  forall d dm, depth ns n d -> depth ns m dm -> d < dm.
Proof.
  intros Huniq Hn Hdesc.
  induction Hdesc as [m Hm Hpar|m k Hk IH Hm Hpar]; intros d dm Hd Hdm.
  - destruct (depth_parent ns Huniq m n dm Hn Hpar Hdm) as (d' & -> & Hd').
    rewrite (depth_fun ns Huniq n d d' Hd Hd'). lia.
  - destruct (descendant_has_parent ns (id n) k Hk) as [Hkin _].
    destruct (depth_parent ns Huniq m k dm Hkin Hpar Hdm) as (dk & -> & Hdk).
    pose proof (IH d dk Hd Hdk). lia.
Qed.

(** So on every tree [reparentNode] lets a node be hung under itself. *)
Lemma reparentNode_self_on_tree (env : Env) (s : StoreState) (treeId : string)
    (n : TreeNode) :
  currentTreeId s = Some treeId -> treeId <> "" ->
  is_tree (nodes s) -> In n (nodes s) ->
  (forall ns, supabase_update env treeId ns = None) ->
  forall fuel, length (nodes s) <= fuel ->
    reparentNode fuel env (id n) (id n) s
    = Returns tt (withNodes s (reparent (id n) (id n) (nodes s))).
Proof.
  intros Htree Hne Hwf Hn Hok fuel Hfuel.
  apply (reparentNode_on_tree env s treeId n n Htree Hne Hwf Hn Hn Hok fuel Hfuel).
  intros Hself. destruct Hwf as (Huniq & _ & _ & Hdepth).
  destruct (Hdepth n Hn) as [d Hd].
  pose proof (descendant_deeper (nodes s) n n Huniq Hn Hself d d Hd Hd). lia.
Qed.

(** C2 (defect). Asked to hang a node under itself, [reparentNode] does not
    refuse: [isAncestor] walks up from the new parent and never compares the
    new parent itself with the node, so the node becomes its own parent and
    the change is saved. *)
Theorem reparentNode_self_parent :
  isAncestor 3 sampleNodes "A" "A" = Some false /\
  reparentNode 3 okEnv "A" "A" sampleStore
  = Returns tt
      (withNodes sampleStore
         [nodeR;
          mkTreeNode "A" "Basics" None (Some "A") (mkPosition 300 100);
          nodeB; nodeC]).
Proof. split; reflexivity. Qed.

(** * More of the code *)

(** ** What the mutations leave alone *)

Lemma perform_Throws_inv (fuel : nat) (env : Env) (m : Mutation)
    (s s' : StoreState) (e : Error) :
  perform fuel env m s = Throws e s' -> s' = s.
Proof.
  intros Hrun.
  destruct (truthy (currentTreeId s)) eqn:Hsel.
  2:{ rewrite (perform_unselected fuel env m s Hsel) in Hrun. discriminate. }
  destruct (currentTreeId s) as [treeId|] eqn:Htree; [|discriminate].
  apply truthy_Some in Hsel.
  destruct m; cbn [perform] in Hrun.
  - destruct (findById parent_id (nodes s)) as [parentNode|] eqn:Hfind.
    + rewrite (addNode_selected env s treeId parent_id parentNode Htree Hsel Hfind)
        in Hrun. cbv zeta in Hrun.
      destruct (supabase_update env treeId _); congruence.
    + rewrite (addNode_unresolved env s parent_id Hfind) in Hrun. discriminate.
  - destruct (findChildren fuel (nodes s) node_id) as [below|] eqn:Hwalk.
    + rewrite (deleteNode_selected fuel env s treeId node_id below Htree Hsel Hwalk)
        in Hrun.
      destruct (supabase_update env treeId _); congruence.
    + rewrite (deleteNode_diverges fuel env s treeId node_id Htree Hsel Hwalk)
        in Hrun. discriminate.
  - rewrite (updateNodeLabel_selected env s treeId _ _ Htree Hsel) in Hrun.
    destruct (supabase_update env treeId _); congruence.
  - rewrite (updateNodeDescription_selected env s treeId _ _ Htree Hsel) in Hrun.
    destruct (supabase_update env treeId _); congruence.
  - destruct (isAncestor fuel (nodes s) node_id newParentId) as [cyclic|] eqn:Hwalk.
    + rewrite (reparentNode_selected fuel env s treeId _ _ cyclic Htree Hsel Hwalk)
        in Hrun.
      destruct cyclic; [discriminate|].
      destruct (supabase_update env treeId _); congruence.
    + rewrite (reparentNode_diverges fuel env s treeId _ _ Htree Hsel Hwalk)
        in Hrun. discriminate.
  - rewrite (onNodeDragStop_selected env s treeId _ _ Htree Hsel) in Hrun.
    destruct (supabase_update env treeId _); congruence.
Qed.

(** X1. Whatever a mutation does and however it ends, fulfilled or rejected,
    it leaves every field of the store but [nodes] as it found it: the
    selected node, the focus and the breadcrumb path are not refreshed. *)
Theorem mutations_touch_only_nodes :
  forall (fuel : nat) (env : Env) (m : Mutation) (s s' : StoreState),
    finalStore (perform fuel env m s) = Some s' ->
    s' = withNodes s (nodes s').
Proof.
  intros fuel env m s s' Hend.
  destruct (perform fuel env m s) as [[] s1|e s1|] eqn:Hrun;
    cbn [finalStore] in Hend; [| |discriminate]; injection Hend as ->.
  - apply perform_Returns_inv in Hrun as [->|Hrun];
      [symmetry; apply withNodes_same|].
    destruct m;
      repeat match goal with
             | H : exists _, _ |- _ => destruct H
             | H : _ /\ _ |- _ => destruct H
             end; subst; reflexivity.
  - apply perform_Throws_inv in Hrun as ->. symmetry. apply withNodes_same.
Qed.

Lemma mutations_touch_only_nodes_witness :
  let before :=
    mkStoreState (Some nodeC) (Some "tree-1") sampleNodes true (Some "C")
      [nodeR; nodeA; nodeC] in
  let after :=
    mkStoreState (Some nodeC) (Some "tree-1") [nodeR; nodeB] true (Some "C")
      [nodeR; nodeA; nodeC] in
  finalStore (perform 4 okEnv (DeleteNode "A") before) = Some after /\
  after = withNodes before (nodes after).
Proof.
  split; [reflexivity|].
  exact (mutations_touch_only_nodes 4 okEnv (DeleteNode "A")
           (mkStoreState (Some nodeC) (Some "tree-1") sampleNodes true
              (Some "C") [nodeR; nodeA; nodeC])
           (mkStoreState (Some nodeC) (Some "tree-1") [nodeR; nodeB] true
              (Some "C") [nodeR; nodeA; nodeC])
           eq_refl).
Defined.

(** ** [createEmptyTree] *)

(** X2. [createEmptyTree] either replaces whatever the store held by a tree
    of one node (id ['root'], the topic as label, at the origin) and selects
    the inserted row's id, or leaves the store untouched: a refused insertion
    is rethrown, an answer with neither data nor error ends silently. *)
Theorem createEmptyTree_outcomes :
  forall (insert : string -> string -> list TreeNode -> InsertAnswer)
         (topic userId : string) (s : StoreState),
    let rootNode := mkTreeNode "root" topic None None (mkPosition 0 0) in
    (forall e, insertError (insert userId topic [rootNode]) = Some e ->
               createEmptyTree insert topic userId s = Throws e s) /\
    (insertError (insert userId topic [rootNode]) = None ->
     insertedId (insert userId topic [rootNode]) = None ->
     createEmptyTree insert topic userId s = Returns tt s) /\
    (forall rowId,
        insertError (insert userId topic [rootNode]) = None ->
        insertedId (insert userId topic [rootNode]) = Some rowId ->
        exists s',
          createEmptyTree insert topic userId s = Returns tt s' /\
          currentTreeId s' = Some rowId /\
          nodes s' = [rootNode] /\
          is_tree (nodes s') /\
          s' = withNodes (mkStoreState (selectedNode s) (Some rowId) (nodes s)
                            (isPanelOpen s) (focusedNodeId s) (breadcrumbPath s))
                 [rootNode]).
Proof.
  intros insert topic userId s rootNode.
  unfold createEmptyTree, try_catch, throw, ret. fold rootNode.
  split; [|split].
  - intros e ->. reflexivity.
  - intros -> ->. reflexivity.
  - intros rowId -> ->. eexists. split; [reflexivity|].
    cbn [currentTreeId nodes]. repeat split.
    + unfold unique_ids. cbn. constructor; [intros []|constructor].
    + repeat constructor. discriminate.
    + intros n [<-|[]]. exists 0. apply depth_root; [left|]; reflexivity.
Qed.

Lemma createEmptyTree_outcomes_witness :
  exists s',
    createEmptyTree okInsert "Python" "user-1" sampleStore = Returns tt s' /\
    currentTreeId s' = Some "tree-9" /\
    nodes s' = [mkTreeNode "root" "Python" None None (mkPosition 0 0)] /\
    is_tree (nodes s') /\
    s' = withNodes (mkStoreState None (Some "tree-9") sampleNodes false None [])
           [mkTreeNode "root" "Python" None None (mkPosition 0 0)].
Proof.
  exact (proj2 (proj2 (createEmptyTree_outcomes okInsert "Python" "user-1"
                         sampleStore))
           "tree-9" eq_refl eq_refl).
Defined.

(** ** Updating a field and reading it back *)

Lemma findById_map (f : TreeNode -> TreeNode) (a : string) (ns : list TreeNode) :
  (forall n, id (f n) = id n) ->
  findById a (map f ns) = option_map f (findById a ns).
Proof.
  intros Hid. unfold findById.
  induction ns as [|n ns IH]; [reflexivity|].
  cbn [map find]. rewrite Hid.
  destruct (id n =? a); [reflexivity|exact IH].
Qed.

Lemma findById_relabel (node_id newLabel a : string) (ns : list TreeNode) :
  findById a (relabel node_id newLabel ns)
  = option_map
      (fun n => if id n =? node_id
                then mkTreeNode (id n) newLabel (description n) (parentId n)
                       (position n)
                else n)
      (findById a ns).
Proof.
  unfold relabel. apply findById_map.
  intros n. destruct (id n =? node_id); reflexivity.
Qed.

(** X3. A fulfilled [updateNodeLabel] can be read back: looking the node up
    afterwards gives the same node with the new label, every other lookup is
    answered as before, and the array keeps its length. *)
Theorem updateNodeLabel_lookup :
  forall (env : Env) (s : StoreState) (treeId node_id newLabel : string)
         (n : TreeNode),
    currentTreeId s = Some treeId -> treeId <> "" ->
    supabase_update env treeId (relabel node_id newLabel (nodes s)) = None ->
    findById node_id (nodes s) = Some n ->
    exists s',
      updateNodeLabel env node_id newLabel s = Returns tt s' /\
      findById node_id (nodes s')
      = Some (mkTreeNode (id n) newLabel (description n) (parentId n)
                (position n)) /\
      (forall other, other <> node_id ->
                     findById other (nodes s') = findById other (nodes s)) /\
      length (nodes s') = length (nodes s).
Proof.
  intros env s treeId node_id newLabel n Htree Hne Hok Hfind.
  eexists. split.
  { rewrite (updateNodeLabel_selected env s treeId _ _ Htree Hne), Hok.
    reflexivity. }
  cbn [nodes withNodes]. split; [|split].
  - rewrite findById_relabel, Hfind. cbn [option_map].
    apply findById_In in Hfind as [_ ->]. rewrite String.eqb_refl. reflexivity.
  - intros other Hother. rewrite findById_relabel.
    destruct (findById other (nodes s)) as [m|] eqn:Hm; [|reflexivity].
    cbn [option_map]. apply findById_In in Hm as [_ ->].
    destruct (String.eqb_spec other node_id); [contradiction|reflexivity].
  - unfold relabel. apply length_map.
Qed.

Lemma updateNodeLabel_lookup_witness :
  exists s',
    updateNodeLabel okEnv "A" "Foundations" sampleStore = Returns tt s' /\
    findById "A" (nodes s')
    = Some (mkTreeNode "A" "Foundations" None (Some "root") (mkPosition 300 100)) /\
    (forall other, other <> "A" ->
                   findById other (nodes s') = findById other sampleNodes) /\
    length (nodes s') = 4.
Proof.
  assert (Hne : "tree-1" <> "") by discriminate.
  exact (updateNodeLabel_lookup okEnv sampleStore "tree-1" "A" "Foundations"
           nodeA eq_refl Hne eq_refl eq_refl).
Defined.

Lemma findById_redescribe (node_id newDescription a : string)
    (ns : list TreeNode) :
  findById a (redescribe node_id newDescription ns)
  = option_map
      (fun n => if id n =? node_id
                then mkTreeNode (id n) (label n)
                       (if newDescription =? "" then None
                        else Some newDescription)
                       (parentId n) (position n)
                else n)
      (findById a ns).
Proof.
  unfold redescribe. apply findById_map.
  intros n. destruct (id n =? node_id); reflexivity.
Qed.

(** X4. A fulfilled [updateNodeDescription] can be read back, the empty
    string being stored as no description at all: afterwards the node's
    description is the new text when that is not empty and absent when it is,
    never the empty string; its other fields are as before. *)
Theorem updateNodeDescription_lookup :
  forall (env : Env) (s : StoreState) (treeId node_id newDescription : string)
         (n : TreeNode),
    currentTreeId s = Some treeId -> treeId <> "" ->
    supabase_update env treeId (redescribe node_id newDescription (nodes s))
    = None ->
    findById node_id (nodes s) = Some n ->
    exists s' n',
      updateNodeDescription env node_id newDescription s = Returns tt s' /\
      findById node_id (nodes s') = Some n' /\
      (newDescription <> "" -> description n' = Some newDescription) /\
      (newDescription = "" -> description n' = None) /\
      description n' <> Some "" /\
      n' = mkTreeNode (id n) (label n) (description n') (parentId n) (position n).
Proof.
  intros env s treeId node_id newDescription n Htree Hne Hok Hfind.
  eexists. eexists. split.
  { rewrite (updateNodeDescription_selected env s treeId _ _ Htree Hne), Hok.
    reflexivity. }
  pose proof (findById_In _ _ _ Hfind) as [_ Hid].
  cbn [nodes withNodes]. split.
  - rewrite findById_redescribe, Hfind. cbn [option_map].
    rewrite Hid, String.eqb_refl. reflexivity.
  - cbn [description]. rewrite Hid.
    destruct (String.eqb_spec newDescription "") as [->|Hd];
      repeat split; congruence.
Qed.

Lemma updateNodeDescription_lookup_witness :
  exists s' n',
    updateNodeDescription okEnv "B" "" sampleStore = Returns tt s' /\
    findById "B" (nodes s') = Some n' /\
    ("" <> "" -> description n' = Some "") /\
    ("" = "" -> description n' = None) /\
    description n' <> Some "" /\
    n' = mkTreeNode "B" "Advanced" (description n') (Some "root")
           (mkPosition 300 300).
Proof.
  assert (Hne : "tree-1" <> "") by discriminate.
  exact (updateNodeDescription_lookup okEnv sampleStore "tree-1" "B" ""
           nodeB eq_refl Hne eq_refl eq_refl).
Defined.

(** ** Updating a node that is not there *)

Lemma map_unresolved (f : TreeNode -> TreeNode) (node_id : string)
    (ns : list TreeNode) :
  findById node_id ns = None ->
  map (fun node => if id node =? node_id then f node else node) ns = ns.
Proof.
  unfold findById. intros Hnone.
  rewrite <- (map_id ns) at 2. apply map_ext_in.
  intros n Hn. pose proof (find_none _ _ Hnone n Hn) as Hneq.
  cbn beta in Hneq. rewrite Hneq. reflexivity.
Qed.

(** X5. The three field updates do not look their node up: on an id that
    resolves to nothing they write the unchanged array to the remote store all
    the same, so the call is fulfilled with the store as it was when the
    write goes through and rejected with the remote error when it does not. *)
Theorem field_update_of_missing_node :
  forall (env : Env) (s : StoreState) (treeId node_id : string),
    currentTreeId s = Some treeId -> treeId <> "" ->
    findById node_id (nodes s) = None ->
    let answer :=
      match supabase_update env treeId (nodes s) with
      | None => Returns tt s
      | Some err => Throws err s
      end in
    (forall newLabel, updateNodeLabel env node_id newLabel s = answer) /\
    (forall newDescription,
        updateNodeDescription env node_id newDescription s = answer) /\
    (forall pos, onNodeDragStop env node_id pos s = answer).
Proof.
  intros env s treeId node_id Htree Hne Hnone answer. subst answer.
  split; [|split].
  - intros newLabel.
    rewrite (updateNodeLabel_selected env s treeId _ _ Htree Hne).
    unfold relabel. rewrite (map_unresolved _ node_id (nodes s) Hnone).
    rewrite withNodes_same. reflexivity.
  - intros newDescription.
    rewrite (updateNodeDescription_selected env s treeId _ _ Htree Hne).
    unfold redescribe. rewrite (map_unresolved _ node_id (nodes s) Hnone).
    rewrite withNodes_same. reflexivity.
  - intros pos.
    rewrite (onNodeDragStop_selected env s treeId _ _ Htree Hne).
    unfold move. rewrite (map_unresolved _ node_id (nodes s) Hnone).
    rewrite withNodes_same. reflexivity.
Qed.

Lemma field_update_of_missing_node_witness :
  updateNodeLabel failEnv "ghost" "renamed" sampleStore
  = Throws "network error" sampleStore /\
  onNodeDragStop okEnv "ghost" (mkPosition 1 2) sampleStore
  = Returns tt sampleStore.
Proof.
  assert (Hne : "tree-1" <> "") by discriminate.
  split.
  - exact (proj1 (field_update_of_missing_node failEnv sampleStore "tree-1"
                    "ghost" eq_refl Hne eq_refl) "renamed").
  - exact (proj2 (proj2 (field_update_of_missing_node okEnv sampleStore
                           "tree-1" "ghost" eq_refl Hne eq_refl))
             (mkPosition 1 2)).
Defined.

(** ** Mutations that keep the node set a tree *)

Lemma depth_map (f : TreeNode -> TreeNode) (ns : list TreeNode) :
  (forall n, id (f n) = id n) ->
  (forall n, parentId (f n) = parentId n) ->
  forall n d, depth ns n d -> depth (map f ns) (f n) d.
Proof.
  intros Hid Hpar n d Hd.
  induction Hd as [n Hin Hroot|n p d Hin Hparent _ IH].
  - apply depth_root; [apply in_map; exact Hin|]. rewrite Hpar. exact Hroot.
  - apply (depth_child _ (f n) (f p) d); [apply in_map; exact Hin| |exact IH].
    rewrite Hpar, Hid. exact Hparent.
Qed.

(** Rewriting labels, descriptions or positions keeps a tree a tree. *)
Lemma is_tree_map (f : TreeNode -> TreeNode) (ns : list TreeNode) :
  (forall n, id (f n) = id n) ->
  (forall n, parentId (f n) = parentId n) ->
  is_tree ns -> is_tree (map f ns).
Proof.
  intros Hid Hpar (Huniq & Hproper & Hone & Hdepth).
  split; [|split; [|split]].
  - unfold unique_ids. rewrite (ids_map f ns Hid). exact Huniq.
  - unfold proper_ids in *. rewrite Forall_forall in *.
    intros m Hm. apply in_map_iff in Hm as (n & <- & Hn).
    rewrite Hid. apply Hproper. exact Hn.
  - unfold one_root. rewrite roots_map; [exact Hone|].
    intros n _. rewrite Hpar. reflexivity.
  - intros m Hm. apply in_map_iff in Hm as (n & <- & Hn).
    destruct (Hdepth n Hn) as [d Hd]. exists d.
    apply depth_map; assumption.
Qed.

(** The three field updates end in a tree when they start in one. *)
Lemma field_update_settles_in_tree :
  forall (fuel : nat) (env : Env) (m : Mutation) (s s' : StoreState),
    isFieldUpdate m = true ->
    is_tree (nodes s) ->
    finalStore (perform fuel env m s) = Some s' ->
    is_tree (nodes s').
Proof.
  intros fuel env m s s' Hfield Htree Hend.
  destruct (perform fuel env m s) as [[] s1|e s1|] eqn:Hrun;
    cbn [finalStore] in Hend; [| |discriminate]; injection Hend as ->.
  - apply perform_Returns_inv in Hrun as [->|Hrun]; [exact Htree|].
    destruct m; try discriminate Hfield; subst s'; cbn [nodes withNodes];
      apply is_tree_map; try exact Htree;
      intros n; destruct (id n =? node_id); reflexivity.
  - apply perform_Throws_inv in Hrun as ->. exact Htree.
Qed.

(** X6. Renaming, describing or moving a node never breaks the tree: from a
    store whose node set is a tree, [updateNodeLabel], [updateNodeDescription]
    and [onNodeDragStop] end, fulfilled or rejected, in a store whose node set
    is a tree. *)
Theorem field_updates_keep_tree :
  forall (fuel : nat) (env : Env) (m : Mutation) (s s' : StoreState),
    isFieldUpdate m = true ->
    is_tree (nodes s) ->
    finalStore (perform fuel env m s) = Some s' ->
    is_tree (nodes s').
Proof. exact field_update_settles_in_tree. Qed.

Lemma field_updates_keep_tree_witness :
  is_tree (move "C" (mkPosition 7 9) sampleNodes).
Proof.
  exact (field_updates_keep_tree 0 okEnv (OnNodeDragStop "C" (mkPosition 7 9))
           sampleStore (withNodes sampleStore (move "C" (mkPosition 7 9) sampleNodes))
           eq_refl sample_is_tree eq_refl).
Defined.

Lemma depth_incl (ns ns' : list TreeNode) :
  incl ns ns' -> forall n d, depth ns n d -> depth ns' n d.
Proof.
  intros Hincl n d Hd.
  induction Hd as [n Hin Hroot|n p d Hin Hpar _ IH].
  - apply depth_root; [apply Hincl; exact Hin|exact Hroot].
  - apply (depth_child _ n p d); [apply Hincl; exact Hin|exact Hpar|exact IH].
Qed.

(** X7. [addNode] keeps the tree: from a tree, with a UUID that is not
    empty and not in use, it ends (fulfilled or rejected) in a tree; when the
    node was added it sits one level below its parent and has no children. *)
Theorem addNode_keeps_tree :
  forall (env : Env) (parent_id : string) (s s' : StoreState),
    is_tree (nodes s) ->
    randomUUID env <> "" ->
    ~ In (randomUUID env) (map id (nodes s)) ->
    finalStore (addNode env parent_id s) = Some s' ->
    is_tree (nodes s') /\
    (nodes s' = nodes s \/
     exists parentNode d newNode,
       findById parent_id (nodes s) = Some parentNode /\
       depth (nodes s) parentNode d /\
       nodes s' = nodes s ++ [newNode] /\
       id newNode = randomUUID env /\
       depth (nodes s') newNode (S d) /\
       hasChildren (id newNode) (nodes s') = false).
Proof.
  intros env parent_id s s' Htree Hproper Hfresh Hend.
  change (addNode env parent_id) with (perform 0 env (AddNode parent_id)) in Hend.
  destruct (perform 0 env (AddNode parent_id) s) as [[] s1|e s1|] eqn:Hrun;
    cbn [finalStore] in Hend; [| |discriminate]; injection Hend as ->.
  2:{ apply perform_Throws_inv in Hrun as ->. split; [exact Htree|left; reflexivity]. }
  apply perform_Returns_inv in Hrun as [->|(parentNode & Hfind & ->)];
    [split; [exact Htree|left; reflexivity]|].
  cbn [nodes withNodes].
  set (newNode := mkTreeNode _ _ _ _ _).
  destruct Htree as (Huniq & Hids & Hone & Hdepth).
  pose proof (findById_In _ _ _ Hfind) as [Hparent Hpid].
  destruct (Hdepth parentNode Hparent) as [d Hd].
  assert (Hincl : incl (nodes s) (nodes s ++ [newNode]))
    by (intros n Hn; apply in_or_app; left; exact Hn).
  assert (Hnew : depth (nodes s ++ [newNode]) newNode (S d)).
  { apply (depth_child _ newNode parentNode d).
    - apply in_or_app. right. left. reflexivity.
    - cbn [newNode parentId]. rewrite Hpid. reflexivity.
    - apply (depth_incl (nodes s)); assumption. }
  split.
  - split; [|split; [|split]].
    + unfold unique_ids in *. rewrite map_app. cbn [map id newNode].
      apply NoDup_app; [exact Huniq| |].
      * constructor; [intros []|constructor].
      * intros i Hi [<-|[]]. apply Hfresh. exact Hi.
    + unfold proper_ids in *. apply Forall_app. split; [exact Hids|].
      constructor; [exact Hproper|constructor].
    + unfold one_root, roots in *. rewrite filter_app.
      cbn [filter parentId isNull newNode]. rewrite app_nil_r. exact Hone.
    + intros n Hn. apply in_app_or in Hn as [Hn|[<-|[]]].
      * destruct (Hdepth n Hn) as [dn Hdn]. exists dn.
        apply (depth_incl (nodes s)); assumption.
      * exists (S d). exact Hnew.
  - right. exists parentNode, d, newNode.
    split; [exact Hfind|]. split; [exact Hd|]. split; [reflexivity|].
    split; [reflexivity|]. split; [exact Hnew|].
    unfold hasChildren. apply not_true_iff_false. intros Hsome.
    apply existsb_exists in Hsome as (child & Hchild & Hpar).
    apply strictEq_true in Hpar. cbn [id newNode] in Hpar.
    apply Hfresh.
    apply in_app_or in Hchild as [Hchild|[<-|[]]].
    + destruct (Hdepth child Hchild) as [dc Hdc].
      destruct Hdc as [c _ Hroot|c p dp _ Hcp Hp]; [congruence|].
      assert (id p = randomUUID env) by congruence.
      rewrite <- H. apply in_map. apply (depth_In _ _ _ Hp).
    + cbn [parentId newNode] in Hpar. injection Hpar as <-.
      rewrite <- Hpid. apply in_map. exact Hparent.
Qed.

Lemma addNode_keeps_tree_witness :
  exists s',
    finalStore (addNode okEnv "A" sampleStore) = Some s' /\
    is_tree (nodes s').
Proof.
  eexists. split; [reflexivity|].
  refine (proj1 (addNode_keeps_tree okEnv "A" sampleStore _
                   sample_is_tree _ _ eq_refl)).
  - discriminate.
  - cbn. intros [H|[H|[H|[H|[]]]]]; discriminate H.
Defined.

(** What [deleteNode] keeps, in terms of ids. *)
Lemma prune_spec (fuel : nat) (ns : list TreeNode) (a : string)
    (below : list string) :
  unique_ids ns -> findChildren fuel ns a = Some below ->
  forall m, In m (prune a below ns) <->
            In m ns /\ id m <> a /\ ~ descendant ns a m.
Proof.
  intros Huniq Hwalk m. unfold prune. rewrite filter_In.
  rewrite negb_true_iff, bool_decide_eq_false.
  rewrite elem_of_list_to_set, list_elem_of_In. cbn [In].
  split.
  - intros [Hm Hkeep]. split; [exact Hm|]. split.
    + intros Heq. apply Hkeep. left. symmetry. exact Heq.
    + intros Hdesc. apply Hkeep. right.
      apply (findChildren_complete _ _ _ _ Hwalk m Hdesc).
  - intros (Hm & Hneq & Hnd). split; [exact Hm|].
    intros [Heq|Hbelow]; [apply Hneq; symmetry; exact Heq|].
    destruct (findChildren_sound _ _ _ _ Hwalk (id m) Hbelow)
      as (m' & Hm' & Hid & Hdesc).
    assert (m' = m) by (apply (unique_ids_inj ns); assumption).
    subst m'. contradiction.
Qed.

Lemma prune_keeps_tree (fuel : nat) (ns : list TreeNode) (a : string)
    (below : list string) :
  is_tree ns -> isRootId ns a = false ->
  findChildren fuel ns a = Some below ->
  is_tree (prune a below ns).
Proof.
  intros (Huniq & Hids & Hone & Hdepth) Hnot Hwalk.
  pose proof (prune_spec fuel ns a below Huniq Hwalk) as Hspec.
  split; [|split; [|split]].
  - apply unique_ids_filter. exact Huniq.
  - unfold proper_ids in *. rewrite Forall_forall in *.
    intros m Hm. apply Hids. apply Hspec in Hm. apply Hm.
  - unfold one_root.
    rewrite (prune_keeps_roots fuel ns a below Huniq Hnot Hwalk). exact Hone.
  - intros m Hm. pose proof (proj1 (Hspec m) Hm) as (Hin & Hneq & Hnd).
    destruct (Hdepth m Hin) as [d Hd]. exists d.
    clear Hin. revert Hm Hneq Hnd.
    induction Hd as [m Hin Hroot|m p d Hin Hpar Hp IH]; intros Hm Hneq Hnd.
    + apply depth_root; assumption.
    + apply (depth_child _ m p d); [exact Hm|exact Hpar|].
      assert (Hpkeep : id p <> a /\ ~ descendant ns a p).
      { split.
        - intros Heq. apply Hnd. apply descendant_child; congruence.
        - intros Hdesc. apply Hnd.
          apply (descendant_below ns a m p); assumption. }
      destruct Hpkeep as [Hpneq Hpnd].
      apply IH; [|exact Hpneq|exact Hpnd].
      apply Hspec. split; [apply (depth_In _ _ _ Hp)|]. split; assumption.
Qed.

(** Away from the root [deleteNode] ends in a tree when it starts in one. *)
Lemma deleteNode_settles_in_tree :
  forall (fuel : nat) (env : Env) (node_id : string) (s s' : StoreState),
    is_tree (nodes s) ->
    isRootId (nodes s) node_id = false ->
    finalStore (deleteNode fuel env node_id s) = Some s' ->
    is_tree (nodes s').
Proof.
  intros fuel env node_id s s' Htree Hnot Hend.
  change (deleteNode fuel env node_id)
    with (perform fuel env (DeleteNode node_id)) in Hend.
  destruct (perform fuel env (DeleteNode node_id) s) as [[] s1|e s1|] eqn:Hrun;
    cbn [finalStore] in Hend; [| |discriminate]; injection Hend as ->.
  - apply perform_Returns_inv in Hrun as [->|(below & Hwalk & ->)];
      [exact Htree|].
    cbn [nodes withNodes]. apply (prune_keeps_tree fuel); assumption.
  - apply perform_Throws_inv in Hrun as ->. exact Htree.
Qed.

(** X8. [deleteNode] on anything but the root keeps the tree: from a tree,
    called with an id that is not the root's, it ends (fulfilled or
    rejected, whatever the fuel) in a tree. *)
Theorem deleteNode_keeps_tree :
  forall (fuel : nat) (env : Env) (node_id : string) (s s' : StoreState),
    is_tree (nodes s) ->
    isRootId (nodes s) node_id = false ->
    finalStore (deleteNode fuel env node_id s) = Some s' ->
    is_tree (nodes s').
Proof. exact deleteNode_settles_in_tree. Qed.

Lemma deleteNode_keeps_tree_witness :
  is_tree [nodeR; nodeB].
Proof.
  exact (deleteNode_keeps_tree 4 okEnv "A" sampleStore
           (withNodes sampleStore [nodeR; nodeB])
           sample_is_tree eq_refl eq_refl).
Defined.

(** On a tree [findChildren] ends within as many calls as there are nodes. *)
Lemma findChildren_on_tree (ns : list TreeNode) (a : string) :
  is_tree ns -> ns <> [] ->
  exists below, forall fuel, length ns <= fuel ->
    findChildren fuel ns a = Some below.
Proof.
  intros Hwf Hsome.
  pose proof Hwf as (Huniq & _).
  set (H := length ns - 1).
  assert (Hsize : length ns = S H).
  { unfold H. destruct ns; [contradiction|cbn [length]; lia]. }
  assert (Hbound : forall m d, depth ns m d -> d <= H).
  { intros m d Hd. pose proof (depth_lt_length ns m d Huniq Hd). lia. }
  destruct (findChildren_total ns H Hwf Hbound H a) as [below Hwalk].
  { intros m _ Hpar d Hd.
    destruct Hd as [m _ Hroot|m p d _ _ _]; [congruence|lia]. }
  exists below. intros fuel Hfuel. rewrite Hsize in Hfuel.
  apply (findChildren_mono ns (S H) fuel a below Hfuel Hwalk).
Qed.

(** In a tree every node but the root lies below the root. *)
Lemma below_the_root (ns : list TreeNode) (r : TreeNode) :
  roots ns = [r] ->
  forall m d, depth ns m d -> m = r \/ descendant ns (id r) m.
Proof.
  intros Hroots m d Hd.
  induction Hd as [m Hin Hroot|m p d Hin Hpar _ IH].
  - left. assert (Hmem : In m (roots ns)).
    { apply filter_In. split; [exact Hin|]. rewrite Hroot. reflexivity. }
    rewrite Hroots in Hmem. destruct Hmem as [->|[]]. reflexivity.
  - right. destruct IH as [->|Hdesc].
    + apply descendant_child; assumption.
    + apply (descendant_below ns (id r) m p); assumption.
Qed.

(** X9. [deleteNode] on the root of a tree removes every node: the call is
    fulfilled (a tree selected, the save going through, fuel for the walk)
    and leaves the node set empty. *)
Theorem deleteNode_root_empties :
  forall (env : Env) (s : StoreState) (treeId : string) (r : TreeNode),
    currentTreeId s = Some treeId -> treeId <> "" ->
    is_tree (nodes s) -> roots (nodes s) = [r] ->
    (forall ns, supabase_update env treeId ns = None) ->
    forall fuel, length (nodes s) <= fuel ->
      deleteNode fuel env (id r) s = Returns tt (withNodes s []).
Proof.
  intros env s treeId r Htree Hne Hwf Hroots Hok fuel Hfuel.
  assert (Hr : In r (nodes s)).
  { assert (Hmem : In r (roots (nodes s))) by (rewrite Hroots; left; reflexivity).
    apply filter_In in Hmem. apply Hmem. }
  destruct (findChildren_on_tree (nodes s) (id r) Hwf) as [below Hwalk].
  { intros Hnil. rewrite Hnil in Hr. destruct Hr. }
  rewrite (deleteNode_selected fuel env s treeId (id r) below Htree Hne
             (Hwalk fuel Hfuel)).
  rewrite Hok. do 2 f_equal.
  pose proof Hwf as (Huniq & _ & _ & Hdepth).
  pose proof (prune_spec fuel (nodes s) (id r) below Huniq (Hwalk fuel Hfuel))
    as Hspec.
  destruct (prune (id r) below (nodes s)) as [|m rest] eqn:Hleft; [reflexivity|].
  exfalso.
  destruct (proj1 (Hspec m) (or_introl eq_refl)) as (Hm & Hneq & Hnd).
  destruct (Hdepth m Hm) as [d Hd].
  destruct (below_the_root (nodes s) r Hroots m d Hd) as [->|Hdesc];
    [apply Hneq; reflexivity|contradiction].
Qed.

Lemma deleteNode_root_empties_witness :
  deleteNode 4 okEnv "root" sampleStore = Returns tt (withNodes sampleStore []).
Proof.
  assert (Hne : "tree-1" <> "") by discriminate.
  apply (deleteNode_root_empties okEnv sampleStore "tree-1" nodeR
           eq_refl Hne sample_is_tree eq_refl (fun _ => eq_refl) 4).
  cbn. lia.
Defined.

(** X10. The node card's delete button cannot break the tree: [handleDelete]
    does nothing on a root and calls [deleteNode] otherwise, so from a tree,
    for a card whose [raw.parentId] is that of the store's node, it ends in a
    tree. *)
Theorem handleDelete_keeps_tree :
  forall (fuel : nat) (env : Env) (node_id : string) (n : TreeNode)
         (s s' : StoreState),
    is_tree (nodes s) ->
    findById node_id (nodes s) = Some n ->
    finalStore (handleDelete fuel env node_id (parentId n) s) = Some s' ->
    is_tree (nodes s') /\
    (parentId n = None -> s' = s).
Proof.
  intros fuel env node_id n s s' Htree Hfind Hend.
  unfold handleDelete in Hend.
  destruct (parentId n) as [pid|] eqn:Hpar; cbn [isNull negb] in Hend.
  - split; [|discriminate].
    apply (deleteNode_settles_in_tree fuel env node_id s s' Htree); [|exact Hend].
    apply not_true_iff_false. intros Hroot.
    unfold isRootId in Hroot. apply existsb_exists in Hroot as (r & Hr & Hboth).
    apply andb_true_iff in Hboth as [Hnull Hid].
    apply isNull_true in Hnull. apply String.eqb_eq in Hid.
    apply findById_In in Hfind as [Hn Hnid].
    assert (r = n).
    { destruct Htree as (Huniq & _).
      apply (unique_ids_inj (nodes s)); [assumption..|]. congruence. }
    congruence.
  - cbn [finalStore ret] in Hend. injection Hend as <-.
    split; [exact Htree|reflexivity].
Qed.

Lemma handleDelete_keeps_tree_witness :
  is_tree (nodes sampleStore) /\
  (parentId nodeR = None -> sampleStore = sampleStore).
Proof.
  exact (handleDelete_keeps_tree 4 okEnv "root" nodeR sampleStore sampleStore
           sample_is_tree eq_refl eq_refl).
Defined.

(** Hanging [n] under a node [p] that is neither [n] nor below [n] keeps a
    tree a tree. *)
Lemma reparent_keeps_tree (ns : list TreeNode) (n p : TreeNode) :
  is_tree ns -> In n ns -> In p ns -> id n <> id p ->
  ~ descendant ns (id n) p ->
  is_tree (reparent (id n) (id p) ns).
Proof.
  intros (Huniq & Hids & Hone & Hdepth) Hn Hp Hneq Hnd.
  unfold reparent.
  set (f := fun node : TreeNode => if id node =? id n then _ else node).
  assert (Hid : forall m, id (f m) = id m).
  { intros m. unfold f. destruct (id m =? id n); reflexivity. }
  assert (Hsame : forall m, In m ns -> m <> n -> f m = m).
  { intros m Hm Hmn. unfold f.
    destruct (String.eqb_spec (id m) (id n)) as [Heq|]; [|reflexivity].
    exfalso. apply Hmn. apply (unique_ids_inj ns); assumption. }
  assert (Hfn : parentId (f n) = Some (id p)).
  { unfold f. rewrite String.eqb_refl. reflexivity. }
  assert (Hchild : exists q, parentId n = Some q).
  { destruct (parentId n) as [q|] eqn:Hpar; [exists q; reflexivity|].
    exfalso.
    assert (Hroots : roots ns = [n]).
    { assert (Hmem : In n (roots ns)).
      { apply filter_In. split; [exact Hn|]. rewrite Hpar. reflexivity. }
      unfold one_root in Hone.
      destruct (roots ns) as [|r0 [|r1 more]]; [destruct Hmem| |discriminate].
      destruct Hmem as [->|[]]. reflexivity. }
    destruct (Hdepth p Hp) as [d Hd].
    destruct (below_the_root ns n Hroots p d Hd) as [->|Hdesc];
      [apply Hneq; reflexivity|contradiction]. }
  destruct Hchild as [q Hq].
  assert (Hout : forall m d, depth ns m d -> m <> n ->
                             ~ descendant ns (id n) m ->
                             depth (map f ns) m d).
  { intros m d Hd.
    induction Hd as [m Hin Hroot|m k d Hin Hpar Hk IH]; intros Hmn Hmd.
    - apply depth_root; [|exact Hroot].
      rewrite <- (Hsame m Hin Hmn). apply in_map. exact Hin.
    - apply (depth_child _ m k d); [|exact Hpar|].
      + rewrite <- (Hsame m Hin Hmn). apply in_map. exact Hin.
      + apply IH.
        * intros ->. apply Hmd. apply descendant_child; assumption.
        * intros Hkd. apply Hmd.
          apply (descendant_below ns (id n) m k); assumption. }
  assert (Hall : forall m d, depth ns m d -> exists d', depth (map f ns) (f m) d').
  { intros m d Hd.
    induction Hd as [m Hin Hroot|m k d Hin Hpar Hk [dk IH]].
    - assert (Hmn : m <> n) by congruence.
      exists 0. rewrite (Hsame m Hin Hmn).
      apply depth_root; [|exact Hroot].
      rewrite <- (Hsame m Hin Hmn). apply in_map. exact Hin.
    - destruct (String.eqb_spec (id m) (id n)) as [Heq|Hne].
      + assert (m = n) by (apply (unique_ids_inj ns); assumption). subst m.
        destruct (Hdepth p Hp) as [dp Hdp].
        exists (S dp). apply (depth_child _ (f n) p dp).
        * apply in_map. exact Hn.
        * exact Hfn.
        * apply Hout; [exact Hdp| |exact Hnd]. congruence.
      + exists (S dk). apply (depth_child _ (f m) (f k) dk).
        * apply in_map. exact Hin.
        * rewrite Hid. unfold f.
          destruct (String.eqb_spec (id m) (id n)); [contradiction|exact Hpar].
        * exact IH. }
  split; [|split; [|split]].
  - unfold unique_ids. rewrite (ids_map f ns Hid). exact Huniq.
  - unfold proper_ids in *. rewrite Forall_forall in *.
    intros m Hm. apply in_map_iff in Hm as (m0 & <- & Hm0).
    rewrite Hid. apply Hids. exact Hm0.
  - unfold one_root. rewrite roots_map; [exact Hone|].
    intros m Hm. unfold f.
    destruct (String.eqb_spec (id m) (id n)) as [Heq|]; [|reflexivity].
    assert (m = n) by (apply (unique_ids_inj ns); assumption). subst m.
    cbn [parentId]. rewrite Hq. reflexivity.
  - intros m Hm. apply in_map_iff in Hm as (m0 & <- & Hm0).
    destruct (Hdepth m0 Hm0) as [d Hd]. apply (Hall m0 d Hd).
Qed.

(** When [isAncestor] answers [false] on a tree, the node asked about is
    not below the other. *)
Lemma isAncestor_false_on_tree (fuel : nat) (ns : list TreeNode)
    (n p : TreeNode) :
  is_tree ns -> In n ns ->
  isAncestor fuel ns (id n) (id p) = Some false ->
  ~ descendant ns (id n) p.
Proof.
  intros Hwf Hn Hfalse Hdesc.
  assert (Hnid : id n <> "").
  { destruct Hwf as (_ & Hids & _). unfold proper_ids in Hids.
    rewrite Forall_forall in Hids. apply Hids. exact Hn. }
  destruct (isAncestor_complete ns (id n) p Hwf Hnid Hdesc) as [fuel0 Htrue].
  pose proof (isAncestor_mono ns (id n) fuel (Nat.max fuel fuel0) (id p) false
                (Nat.le_max_l _ _) Hfalse) as Hlater.
  rewrite Htrue in Hlater by lia. discriminate.
Qed.

(** Between two different nodes [reparentNode] ends in a tree when it starts in one. *)
Lemma reparentNode_settles_in_tree :
  forall (fuel : nat) (env : Env) (n p : TreeNode) (s s' : StoreState),
    is_tree (nodes s) -> In n (nodes s) -> In p (nodes s) ->
    id n <> id p ->
    finalStore (reparentNode fuel env (id n) (id p) s) = Some s' ->
    is_tree (nodes s') /\
    (s' = s \/
     (~ descendant (nodes s) (id n) p /\
      findById (id n) (nodes s')
      = Some (mkTreeNode (id n) (label n) (description n) (Some (id p))
                (position n)))).
Proof.
  intros fuel env n p s s' Htree Hn Hp Hneq Hend.
  change (reparentNode fuel env (id n) (id p))
    with (perform fuel env (ReparentNode (id n) (id p))) in Hend.
  destruct (perform fuel env (ReparentNode (id n) (id p)) s)
    as [[] s1|e s1|] eqn:Hrun;
    cbn [finalStore] in Hend; [| |discriminate]; injection Hend as ->.
  2:{ apply perform_Throws_inv in Hrun as ->. split; [exact Htree|left; reflexivity]. }
  apply perform_Returns_inv in Hrun as [->|(Hwalk & ->)];
    [split; [exact Htree|left; reflexivity]|].
  pose proof (isAncestor_false_on_tree fuel (nodes s) n p Htree Hn Hwalk) as Hnd.
  cbn [nodes withNodes]. split.
  - apply reparent_keeps_tree; assumption.
  - right. split; [exact Hnd|].
    unfold reparent. rewrite findById_map.
    + destruct Htree as (Huniq & _).
      rewrite (findById_unique (nodes s) n Huniq Hn). cbn [option_map].
      rewrite String.eqb_refl. reflexivity.
    + intros m. destruct (id m =? id n); reflexivity.
Qed.

(** X11. [reparentNode] between two different nodes of a tree keeps the
    tree: however the call ends, the node set is still a tree; and when the
    node set did change, the new parent was not below the node and the node
    now names it as its parent. *)
Theorem reparentNode_keeps_tree :
  forall (fuel : nat) (env : Env) (n p : TreeNode) (s s' : StoreState),
    is_tree (nodes s) -> In n (nodes s) -> In p (nodes s) ->
    id n <> id p ->
    finalStore (reparentNode fuel env (id n) (id p) s) = Some s' ->
    is_tree (nodes s') /\
    (s' = s \/
     (~ descendant (nodes s) (id n) p /\
      findById (id n) (nodes s')
      = Some (mkTreeNode (id n) (label n) (description n) (Some (id p))
                (position n)))).
Proof. exact reparentNode_settles_in_tree. Qed.

Lemma reparentNode_keeps_tree_witness :
  exists s',
    finalStore (reparentNode 4 okEnv "C" "B" sampleStore) = Some s' /\
    is_tree (nodes s') /\
    (s' = sampleStore \/
     (~ descendant sampleNodes "C" nodeB /\
      findById "C" (nodes s')
      = Some (mkTreeNode "C" "Loops" None (Some "B") (mkPosition 600 100)))).
Proof.
  eexists. split; [reflexivity|].
  refine (reparentNode_keeps_tree 4 okEnv nodeC nodeB sampleStore _
            sample_is_tree _ _ _ eq_refl).
  - right; right; right; left; reflexivity.
  - right; right; left; reflexivity.
  - discriminate.
Defined.

(** ** Breadcrumbs *)

Lemma breadcrumbLoop_app (ns : list TreeNode) (suffix : list TreeNode) :
  forall fuel current path,
    breadcrumbLoop fuel ns current (path ++ suffix)
    = option_map (fun climbed => climbed ++ suffix)
        (breadcrumbLoop fuel ns current path).
Proof.
  induction fuel as [|fuel IH]; intros [current|] path;
    try reflexivity; rewrite !breadcrumbLoop_unfold;
    destruct (negb (truthy (parentId current))); try reflexivity.
  destruct (parentId current) as [pid|]; [|reflexivity].
  destruct (findById pid ns) as [parent|]; [|reflexivity].
  apply (IH (Some parent) (parent :: path)).
Qed.

(** The path of a child is the path of its parent with the child at the
    end. *)
Lemma breadcrumb_step (ns : list TreeNode) (n p : TreeNode) :
  unique_ids ns -> In n ns -> In p ns ->
  parentId n = Some (id p) -> id p <> "" ->
  forall fuel path,
    calculateBreadcrumbPath fuel (id p) ns = Some path ->
    calculateBreadcrumbPath (S fuel) (id n) ns = Some (path ++ [n]).
Proof.
  intros Huniq Hn Hp Hpar Hne fuel path. unfold calculateBreadcrumbPath.
  rewrite (findById_unique ns n Huniq Hn), (findById_unique ns p Huniq Hp).
  rewrite (breadcrumbLoop_unfold (S fuel) ns n []), Hpar.
  apply truthy_Some in Hne. rewrite Hne. cbn [negb].
  rewrite (findById_unique ns p Huniq Hp).
  change [p] with ([] ++ [p]) at 2.
  rewrite (breadcrumbLoop_app ns [p] fuel (Some p) []).
  destruct (breadcrumbLoop fuel ns (Some p) []) as [climbed|]; [|discriminate].
  cbn [option_map]. intros [= <-]. reflexivity.
Qed.

(** X12. Breadcrumb paths nest: in a node set with unique ids, the path
    computed for a node is the path computed for its parent followed by the
    node itself. *)
Theorem breadcrumb_path_extends_parent :
  forall (ns : list TreeNode) (n p : TreeNode) (fuel : nat)
         (path : list TreeNode),
    unique_ids ns -> In n ns -> In p ns ->
    parentId n = Some (id p) -> id p <> "" ->
    calculateBreadcrumbPath fuel (id p) ns = Some path ->
    calculateBreadcrumbPath (S fuel) (id n) ns = Some (path ++ [n]).
Proof.
  intros ns n p fuel path Huniq Hn Hp Hpar Hne.
  apply breadcrumb_step; assumption.
Qed.

Lemma breadcrumb_path_extends_parent_witness :
  calculateBreadcrumbPath 2 "C" sampleNodes = Some ([nodeR; nodeA] ++ [nodeC]).
Proof.
  refine (breadcrumb_path_extends_parent sampleNodes nodeC nodeA 1
            [nodeR; nodeA] sample_unique_ids _ _ eq_refl _ eq_refl).
  - right; right; right; left; reflexivity.
  - right; left; reflexivity.
  - discriminate.
Defined.

Lemma dialogLoop_breadcrumbLoop (ns : list TreeNode) :
  forall fuel current path,
    dialogLoop fuel ns (Some current) path
    = option_map (fun climbed => climbed ++ current :: path)
        (breadcrumbLoop fuel ns (Some current) []).
Proof.
  induction fuel as [|fuel IH]; intros current path;
    rewrite breadcrumbLoop_unfold; cbn [dialogLoop];
    destruct (truthy (parentId current)) eqn:Htruthy; cbn [negb];
    try reflexivity.
  destruct (parentId current) as [pid|]; [|discriminate Htruthy].
  destruct (findById pid ns) as [parent|].
  - rewrite IH. change [parent] with ([] ++ [parent]).
    rewrite (breadcrumbLoop_app ns [parent] fuel (Some parent) []).
    destruct (breadcrumbLoop fuel ns (Some parent) []) as [climbed|];
      [|reflexivity].
    cbn [option_map]. rewrite <- app_assoc. reflexivity.
  - destruct fuel; reflexivity.
Qed.

(** X13. The detail dialog and the tree view compute the same breadcrumb:
    for a selected node that is the store's node for its id, the dialog's
    own loop returns what [calculateBreadcrumbPath] returns for that id, with
    any fuel (and so neither ends where the other does not). *)
Theorem dialog_breadcrumb_agrees :
  forall (fuel : nat) (ns : list TreeNode) (selected : TreeNode),
    findById (id selected) ns = Some selected ->
    dialogBreadcrumbPath fuel (Some selected) ns
    = calculateBreadcrumbPath fuel (id selected) ns.
Proof.
  intros fuel ns selected Hfind.
  unfold dialogBreadcrumbPath, calculateBreadcrumbPath. rewrite Hfind.
  destruct ns as [|n0 rest]; [discriminate Hfind|]. cbn [length Nat.eqb].
  rewrite dialogLoop_breadcrumbLoop.
  destruct (breadcrumbLoop fuel (n0 :: rest) (Some selected) []); reflexivity.
Qed.

Lemma dialog_breadcrumb_agrees_witness :
  dialogBreadcrumbPath 2 (Some nodeC) sampleNodes
  = calculateBreadcrumbPath 2 "C" sampleNodes.
Proof.
  exact (dialog_breadcrumb_agrees 2 sampleNodes nodeC eq_refl).
Defined.

(** X14. The level that picks a card's icon is the node's depth capped at
    two: for a node of a tree at depth [d], [nodeLevel] is [min d 2]. *)
Theorem nodeLevel_is_capped_depth :
  forall (ns : list TreeNode) (n : TreeNode) (d : nat),
    is_tree ns -> depth ns n d ->
    nodeLevel (parentId n) ns = Nat.min d 2.
Proof.
  intros ns n d (Huniq & _ & _ & _) Hd. unfold nodeLevel.
  destruct Hd as [n Hin Hroot|n p d Hin Hpar Hp].
  - rewrite Hroot. reflexivity.
  - rewrite Hpar.
    rewrite (findById_unique ns p Huniq (depth_In ns p d Hp)).
    destruct Hp as [p _ Hroot|p q d _ Hq _].
    + rewrite Hroot. reflexivity.
    + rewrite Hq. cbn [isNull]. lia.
Qed.

Lemma nodeLevel_is_capped_depth_witness :
  nodeLevel (parentId nodeC) sampleNodes = Nat.min 2 2.
Proof.
  exact (nodeLevel_is_capped_depth sampleNodes nodeC 2
           sample_is_tree sample_depth_C).
Defined.

(** ** Moving the focus *)

Lemma handleNodeFocus_on (fuel : nat) (data : list TreeNode) (nodeId : string)
    (path : list TreeNode) (s : StoreState) :
  nodeId <> "root" ->
  calculateBreadcrumbPath fuel nodeId (allNodes data s) = Some path ->
  handleNodeFocus fuel data nodeId s
  = Returns tt
      (mkStoreState (selectedNode s) (currentTreeId s) (nodes s) (isPanelOpen s)
         (Some nodeId) path).
Proof.
  intros Hne Hpath. unfold handleNodeFocus.
  destruct (String.eqb_spec nodeId "root"); [contradiction|].
  cbv [bind get setFocusedNode walk setBreadcrumbPath].
  rewrite Hpath. reflexivity.
Qed.

Lemma allNodes_store (data : list TreeNode) (s : StoreState) (n : TreeNode) :
  In n (nodes s) -> allNodes data s = nodes s.
Proof.
  unfold allNodes. destruct (nodes s); [intros []|reflexivity].
Qed.

(** X15. The parent button pops the last breadcrumb: with the focus put by
    [handleNodeFocus] on a node of the store's tree whose parent is not named
    ['root'], [handleNavigateToParent] moves the focus to the parent and the
    breadcrumb path loses its last entry; when the parent is named ['root']
    it clears the focus and the path instead. The node set is not touched. *)
Theorem navigate_to_parent :
  forall (fuel : nat) (data : list TreeNode) (s : StoreState)
         (n p : TreeNode) (d : nat),
    is_tree (nodes s) ->
    In n (nodes s) -> parentId n = Some (id p) -> depth (nodes s) p d ->
    id n <> "root" -> S d <= fuel ->
    exists s1 s2,
      handleNodeFocus fuel data (id n) s = Returns tt s1 /\
      handleNavigateToParent fuel data s1 = Returns tt s2 /\
      focusedNodeId s1 = Some (id n) /\
      nodes s2 = nodes s /\
      (id p <> "root" ->
       focusedNodeId s2 = Some (id p) /\
       breadcrumbPath s2 = removelast (breadcrumbPath s1)) /\
      (id p = "root" ->
       focusedNodeId s2 = None /\ breadcrumbPath s2 = []).
Proof.
  intros fuel data s n p d Htree Hn Hpar Hd Hnroot Hfuel.
  pose proof Htree as (Huniq & Hproper & _ & _).
  pose proof Hproper as Hids.
  unfold proper_ids in Hids. rewrite Forall_forall in Hids.
  pose proof (depth_In _ _ _ Hd) as Hp.
  destruct (breadcrumbLoop_ancestors (nodes s) Huniq Hproper p d Hd)
    as (ancestors & _ & _ & _ & Hloop).
  assert (Hpath_p : forall f, d <= f ->
             calculateBreadcrumbPath f (id p) (nodes s)
             = Some (ancestors ++ [p])).
  { intros f Hf. unfold calculateBreadcrumbPath.
    rewrite (findById_unique _ p Huniq Hp), (Hloop f [] Hf), app_nil_r.
    reflexivity. }
  assert (Hpath_n : calculateBreadcrumbPath fuel (id n) (nodes s)
                    = Some ((ancestors ++ [p]) ++ [n])).
  { destruct fuel as [|f]; [lia|].
    apply (breadcrumb_step (nodes s) n p Huniq Hn Hp Hpar (Hids p Hp)).
    apply Hpath_p. lia. }
  set (s1 := mkStoreState (selectedNode s) (currentTreeId s) (nodes s)
               (isPanelOpen s) (Some (id n)) ((ancestors ++ [p]) ++ [n])).
  assert (Hall : allNodes data s = nodes s) by apply (allNodes_store data s n Hn).
  assert (Hall1 : allNodes data s1 = nodes s)
    by apply (allNodes_store data s1 n Hn).
  assert (Hfocus : handleNodeFocus fuel data (id n) s = Returns tt s1).
  { apply handleNodeFocus_on; [exact Hnroot|]. rewrite Hall. exact Hpath_n. }
  assert (Hnav : handleNavigateToParent fuel data s1
                 = handleNodeFocus fuel data (id p) s1).
  { unfold handleNavigateToParent. unfold bind at 1. unfold get.
    cbn [focusedNodeId s1].
    pose proof (proj2 (truthy_Some (id n)) (Hids n Hn)) as Htn.
    rewrite Htn. cbn [negb]. rewrite Hall1.
    rewrite (findById_unique _ n Huniq Hn), Hpar.
    pose proof (proj2 (truthy_Some (id p)) (Hids p Hp)) as Htp.
    rewrite Htp. reflexivity. }
  destruct (String.eqb_spec (id p) "root") as [Hroot|Hnot].
  - exists s1. eexists. split; [exact Hfocus|]. split.
    { rewrite Hnav. unfold handleNodeFocus. rewrite Hroot. reflexivity. }
    split; [reflexivity|]. split; [reflexivity|].
    split; [contradiction|]. intros _. split; reflexivity.
  - exists s1. eexists. split; [exact Hfocus|]. split.
    { rewrite Hnav. apply handleNodeFocus_on; [exact Hnot|].
      rewrite Hall1. apply Hpath_p. lia. }
    split; [reflexivity|]. split; [reflexivity|].
    split; [|contradiction]. intros _. split; [reflexivity|].
    cbn [breadcrumbPath s1]. rewrite removelast_last. reflexivity.
Qed.

Lemma sample_depth_A : depth sampleNodes nodeA 1.
Proof.
  apply (depth_child _ nodeA nodeR); [right; left; reflexivity|reflexivity|].
  apply depth_root; [left; reflexivity|reflexivity].
Qed.

Lemma navigate_to_parent_witness :
  exists s1 s2,
    handleNodeFocus 2 [] "C" sampleStore = Returns tt s1 /\
    handleNavigateToParent 2 [] s1 = Returns tt s2 /\
    focusedNodeId s1 = Some "C" /\
    nodes s2 = sampleNodes /\
    ("A" <> "root" ->
     focusedNodeId s2 = Some "A" /\
     breadcrumbPath s2 = removelast (breadcrumbPath s1)) /\
    ("A" = "root" -> focusedNodeId s2 = None /\ breadcrumbPath s2 = []).
Proof.
  refine (navigate_to_parent 2 [] sampleStore nodeC nodeA 1
            sample_is_tree _ eq_refl sample_depth_A _ _).
  - right; right; right; left; reflexivity.
  - discriminate.
  - lia.
Defined.

(** X16. Focusing an id the node set does not have shows everything and no
    breadcrumb bar: [handleNodeFocus] stores the id with an empty path, so
    [BreadcrumbNavigation] renders nothing and the view falls back to the
    whole node set. *)
Theorem focus_on_missing_node :
  forall (fuel : nat) (data : list TreeNode) (nodeId : string)
         (s : StoreState),
    nodeId <> "root" -> nodeId <> "" ->
    findById nodeId (allNodes data s) = None ->
    exists s',
      handleNodeFocus fuel data nodeId s = Returns tt s' /\
      focusedNodeId s' = Some nodeId /\
      breadcrumbShown s' = false /\
      effectiveData (focusedNodeId s') (allNodes data s') = allNodes data s'.
Proof.
  intros fuel data nodeId s Hnroot Hne Hnone.
  eexists. split.
  { apply handleNodeFocus_on; [exact Hnroot|].
    unfold calculateBreadcrumbPath. rewrite Hnone.
    destruct fuel; reflexivity. }
  split; [reflexivity|]. split.
  - unfold breadcrumbShown. cbn [breadcrumbPath length Nat.eqb negb].
    apply andb_false_r.
  - cbn [focusedNodeId]. unfold effectiveData, getFocusedNodes.
    pose proof (proj2 (truthy_Some nodeId) Hne) as Ht. rewrite Ht. cbn [negb].
    change (allNodes data (mkStoreState _ _ (nodes s) _ _ _))
      with (allNodes data s).
    rewrite Hnone. reflexivity.
Qed.

Lemma focus_on_missing_node_witness :
  exists s',
    handleNodeFocus 0 [] "ghost" sampleStore = Returns tt s' /\
    focusedNodeId s' = Some "ghost" /\
    breadcrumbShown s' = false /\
    effectiveData (focusedNodeId s') (allNodes [] s') = allNodes [] s'.
Proof.
  refine (focus_on_missing_node 0 [] "ghost" sampleStore _ _ eq_refl);
    discriminate.
Defined.

(** ** What the view shows *)

Lemma children_spec (a : string) (ns : list TreeNode) (m : TreeNode) :
  In m (filter (fun n => strictEq (parentId n) a) ns)
  <-> In m ns /\ parentId m = Some a.
Proof. rewrite filter_In, strictEq_true. reflexivity. Qed.

(** X17. Focusing the root changes nothing on screen: for a node set with
    unique ids whose root has a non-empty id, the view focused on the root
    is the default view. (The card's focus button does focus the root;
    only [handleNodeFocus] treats the id ['root'] apart.) *)
Theorem focus_on_root_is_default :
  forall (ns : list TreeNode) (r : TreeNode),
    unique_ids ns ->
    find (fun n => isNull (parentId n)) ns = Some r ->
    id r <> "" ->
    effectiveData (Some (id r)) ns = effectiveData None ns.
Proof.
  intros ns r Huniq Hroot Hne.
  pose proof (find_some _ _ Hroot) as [Hr _].
  unfold effectiveData, getFocusedNodes, getDefaultFocusedNodes.
  pose proof (proj2 (truthy_Some (id r)) Hne) as Ht. rewrite Ht. cbn [negb].
  rewrite (findById_unique ns r Huniq Hr), Hroot.
  destruct ns as [|n0 rest]; [destruct Hr|]. reflexivity.
Qed.

Lemma focus_on_root_is_default_witness :
  effectiveData (Some "root") sampleNodes = effectiveData None sampleNodes.
Proof.
  assert (Hne : "root" <> "") by discriminate.
  exact (focus_on_root_is_default sampleNodes nodeR sample_unique_ids
           eq_refl Hne).
Defined.

(** X18. In the default view every edge drawn runs from the root to a node
    on screen, and there is one edge per node on screen other than the
    root. *)
Theorem default_view_edges :
  forall (ns : list TreeNode) (r : TreeNode),
    find (fun n => isNull (parentId n)) ns = Some r ->
    let view := effectiveData None ns in
    length (edgesOf view) = length view - 1 /\
    forall e, In e (edgesOf view) ->
      Edge.source e = Some (id r) /\
      In (id r) (map id view) /\
      In (Edge.target e) (map id view) /\
      Edge.id e = (id r ++ "-" ++ Edge.target e)%string.
Proof.
  intros ns r Hroot view.
  pose proof (find_some _ _ Hroot) as [Hr Hnull]. cbn beta in Hnull.
  assert (Hview : view = r :: filter (fun n => strictEq (parentId n) (id r)) ns).
  { unfold view, effectiveData, getDefaultFocusedNodes.
    destruct ns as [|n0 rest]; [destruct Hr|].
    cbn [length Nat.eqb]. rewrite Hroot. reflexivity. }
  set (children := filter (fun n => strictEq (parentId n) (id r)) ns) in *.
  assert (Hkept : filter (fun item => negb (isNull (parentId item))) view
                  = children).
  { rewrite Hview. cbn [filter]. rewrite Hnull. cbn [negb].
    apply forallb_filter_id. apply forallb_forall.
    intros m Hm. apply children_spec in Hm as [_ ->]. reflexivity. }
  unfold edgesOf. rewrite Hkept. split.
  - rewrite length_map, Hview. cbn [length]. lia.
  - intros e He. apply in_map_iff in He as (m & <- & Hm).
    pose proof (proj1 (children_spec _ _ _) Hm) as [_ Hpar].
    cbn [Edge.source Edge.target Edge.id]. rewrite Hpar.
    split; [reflexivity|]. split; [rewrite Hview; left; reflexivity|].
    split; [|reflexivity].
    rewrite Hview. right. apply in_map. exact Hm.
Qed.

Lemma default_view_edges_witness :
  length (edgesOf (effectiveData None sampleNodes)) = 3 - 1 /\
  forall e, In e (edgesOf (effectiveData None sampleNodes)) ->
    Edge.source e = Some "root" /\
    In "root" (map id (effectiveData None sampleNodes)) /\
    In (Edge.target e) (map id (effectiveData None sampleNodes)) /\
    Edge.id e = ("root" ++ "-" ++ Edge.target e)%string.
Proof.
  exact (default_view_edges sampleNodes nodeR eq_refl).
Defined.

(** X19. In the view focused on a node of a tree that is not the root, the
    edge list still holds the edge into the focused node, although its
    source, the node's parent, is not among the nodes of the view. *)
Theorem focused_view_dangling_edge :
  forall (ns : list TreeNode) (f p : TreeNode),
    is_tree ns -> In f ns -> In p ns -> parentId f = Some (id p) ->
    let view := effectiveData (Some (id f)) ns in
    In (Edge.mk (id p ++ "-" ++ id f)%string (Some (id p)) (id f))
       (edgesOf view) /\
    ~ In (id p) (map id view).
Proof.
  intros ns f p Htree Hf Hp Hpar view.
  pose proof Htree as (Huniq & Hids & _ & Hdepth).
  unfold proper_ids in Hids. rewrite Forall_forall in Hids.
  assert (Hview : view = f :: filter (fun n => strictEq (parentId n) (id f)) ns).
  { unfold view, effectiveData, getFocusedNodes.
    pose proof (proj2 (truthy_Some (id f)) (Hids f Hf)) as Ht.
    rewrite Ht. cbn [negb]. rewrite (findById_unique ns f Huniq Hf).
    reflexivity. }
  destruct (Hdepth f Hf) as [df Hdf].
  destruct (depth_parent ns Huniq f p df Hp Hpar Hdf) as (dp & -> & Hdp).
  split.
  - unfold edgesOf. rewrite Hview. cbn [filter map]. rewrite Hpar.
    cbn [isNull negb map]. rewrite Hpar. left. reflexivity.
  - rewrite Hview. cbn [map]. intros [Heq|Hchild].
    + assert (f = p) by (apply (unique_ids_inj ns); assumption). subst p.
      pose proof (depth_fun ns Huniq f _ _ Hdf Hdp). lia.
    + apply in_map_iff in Hchild as (m & Hid & Hm).
      apply children_spec in Hm as [Hm Hmpar].
      assert (m = p) by (apply (unique_ids_inj ns); assumption). subst m.
      destruct (depth_parent ns Huniq p f dp Hf Hmpar Hdp) as (d' & -> & Hd').
      pose proof (depth_fun ns Huniq f _ _ Hdf Hd'). lia.
Qed.

Lemma focused_view_dangling_edge_witness :
  In (Edge.mk ("root" ++ "-" ++ "A")%string (Some "root") "A")
     (edgesOf (effectiveData (Some "A") sampleNodes)) /\
  ~ In "root" (map id (effectiveData (Some "A") sampleNodes)).
Proof.
  refine (focused_view_dangling_edge sampleNodes nodeA nodeR
            sample_is_tree _ _ eq_refl).
  - right; left; reflexivity.
  - left; reflexivity.
Defined.

(** ** Dropping a card *)

Lemma bind_settles {A B : Type} (m : M A) (k : A -> M B) (s s' : StoreState) :
  finalStore (bind m k s) = Some s' ->
  (exists e, m s = Throws e s') \/
  (exists a s1, m s = Returns a s1 /\ finalStore (k a s1) = Some s').
Proof.
  unfold bind. destruct (m s) as [a s1|e s1|]; cbn [finalStore]; intros Hend.
  - right. exists a, s1. split; [reflexivity|exact Hend].
  - left. exists e. congruence.
  - discriminate.
Qed.

Lemma onNodeDragStop_settles (env : Env) (a : string) (pos : Position)
    (s s' : StoreState) :
  finalStore (onNodeDragStop env a pos s) = Some s' ->
  s' = s \/ s' = withNodes s (move a pos (nodes s)).
Proof.
  intros Hend.
  change (onNodeDragStop env a pos)
    with (perform 0 env (OnNodeDragStop a pos)) in Hend.
  destruct (perform 0 env (OnNodeDragStop a pos) s) as [[] s1|e s1|] eqn:Hrun;
    cbn [finalStore] in Hend; [| |discriminate]; injection Hend as ->.
  - apply perform_Returns_inv in Hrun as [->| ->]; [left|right]; reflexivity.
  - apply perform_Throws_inv in Hrun as ->. left. reflexivity.
Qed.

Lemma move_ids (a : string) (pos : Position) (ns : list TreeNode) :
  map id (move a pos ns) = map id ns.
Proof.
  unfold move. apply ids_map. intros n. destruct (id n =? a); reflexivity.
Qed.

Lemma move_keeps_tree (a : string) (pos : Position) (ns : list TreeNode) :
  is_tree ns -> is_tree (move a pos ns).
Proof.
  unfold move. apply is_tree_map; intros n; destruct (id n =? a); reflexivity.
Qed.

Lemma onNodeDragStop_settles_in_tree (env : Env) (a : string) (pos : Position)
    (s s' : StoreState) :
  is_tree (nodes s) ->
  finalStore (onNodeDragStop env a pos s) = Some s' ->
  is_tree (nodes s') /\ map id (nodes s') = map id (nodes s).
Proof.
  intros Htree Hend.
  apply onNodeDragStop_settles in Hend as [->| ->]; cbn [nodes withNodes].
  - split; [exact Htree|reflexivity].
  - split; [apply move_keeps_tree; exact Htree|apply move_ids].
Qed.

(** X20. Dropping a card keeps the tree a tree, whatever it is dropped on and
    whatever the remote store answers: when the cards on screen carry nodes
    of the store under their own ids and the handler settles, the store's
    nodes are a tree again. The handler never hands [reparentNode] the
    dragged node as its own new parent, because a card is not tested against
    itself. *)
Theorem handleNodeDragStop_keeps_tree :
  forall (fuel : nat) (env : Env) (flowNodes : list FlowNode)
         (draggedNode : FlowNode) (s s' : StoreState),
    is_tree (nodes s) ->
    (forall fn r, In fn (draggedNode :: flowNodes) -> raw fn = Some r ->
       Layout.id (geometry fn) = id r /\ In (id r) (map id (nodes s))) ->
    finalStore (handleNodeDragStop fuel env flowNodes draggedNode s) = Some s' ->
    is_tree (nodes s').
Proof.
  intros fuel env flowNodes draggedNode s s' Htree Hflow Hend.
  unfold handleNodeDragStop in Hend.
  unfold bind at 1 in Hend. unfold get at 1 in Hend. cbv zeta in Hend.
  set (pos := mkPosition _ _) in Hend.
  set (draggedId := Layout.id (geometry draggedNode)) in *.
  assert (Hplain : forall s1,
            finalStore (onNodeDragStop env draggedId pos s) = Some s1 ->
            is_tree (nodes s1)).
  { intros s1 H1. apply (onNodeDragStop_settles_in_tree env _ _ s s1 Htree H1). }
  destruct (filter _ flowNodes) as [|newParentNode others] eqn:Hfilter;
    [exact (Hplain _ Hend)|].
  destruct (raw draggedNode) as [draggedRaw|] eqn:Hdragged;
    [|exact (Hplain _ Hend)].
  destruct (raw newParentNode) as [newParentRaw|] eqn:Hparent;
    [|exact (Hplain _ Hend)].
  assert (Hin : In newParentNode (filter
            (fun node => negb (Layout.id (geometry node) =? draggedId)
                         && Layout.isNodeIntersecting (geometry draggedNode)
                              (geometry node)) flowNodes)).
  { rewrite Hfilter. left. reflexivity. }
  apply filter_In in Hin as [Hshown Hother].
  apply andb_prop in Hother as [Hother _].
  apply negb_true_iff, String.eqb_neq in Hother.
  destruct (Hflow draggedNode draggedRaw (or_introl eq_refl) Hdragged)
    as [Hdid Hdin].
  destruct (Hflow newParentNode newParentRaw (or_intror Hshown) Hparent)
    as [Hpid Hpin].
  fold draggedId in Hdid.
  apply bind_settles in Hend as [(e & Habs)|(below & s0 & Hwalk & Hend)].
  { unfold walk in Habs. destruct (isDescendant _ _ _ _); discriminate. }
  assert (s0 = s) as ->.
  { unfold walk in Hwalk. destruct (isDescendant _ _ _ _); congruence. }
  destruct below; cbn [negb] in Hend; [exact (Hplain _ Hend)|].
  apply bind_settles in Hend as [(e & Hthrown)|([] & s1 & Hmoved & Hend)].
  { apply Hplain. rewrite Hthrown. reflexivity. }
  assert (Hs1 : finalStore (onNodeDragStop env draggedId pos s) = Some s1)
    by (rewrite Hmoved; reflexivity).
  apply onNodeDragStop_settles_in_tree in Hs1 as [Htree1 Hids1];
    [|exact Htree].
  rewrite <- Hids1 in Hdin, Hpin.
  apply in_map_iff in Hdin as (n & Hn & Hnin).
  apply in_map_iff in Hpin as (p & Hp & Hpin).
  rewrite <- Hn, <- Hp in Hend.
  refine (proj1 (reparentNode_settles_in_tree fuel env n p s1 s'
                   Htree1 Hnin Hpin _ Hend)).
  congruence.
Qed.

Lemma handleNodeDragStop_keeps_tree_witness :
  is_tree (reparent "C" "B" (move "C" (mkPosition 310 250) sampleNodes)).
Proof.
  refine (handleNodeDragStop_keeps_tree 4 okEnv (flowNodesOf sampleNodes)
            (cardAt nodeC 310 250) sampleStore
            (withNodes sampleStore
               (reparent "C" "B" (move "C" (mkPosition 310 250) sampleNodes)))
            sample_is_tree _ _).
  - intros fn r Hfn Hraw. cbn in Hfn.
    destruct Hfn as [<-|[<-|[<-|[<-|[<-|[]]]]]]; injection Hraw as <-;
      (split; [reflexivity|cbn; auto 10]).
  - vm_compute. reflexivity.
Defined.

(** ** The detail panel's selection *)

(** X21. The detail panel shows a snapshot: after [openPanel] on a node and
    a fulfilled [updateNodeLabel] of the same node to another label, the
    panel is open on the node as it was, while the store's node carries the
    new label. *)
Theorem selection_stale_after_rename :
  forall (env : Env) (s : StoreState) (treeId a l : string) (n : TreeNode),
    currentTreeId s = Some treeId -> treeId <> "" ->
    findById a (nodes s) = Some n ->
    supabase_update env treeId (relabel a l (nodes s)) = None ->
    l <> label n ->
    exists s',
      (openPanel a ;;; updateNodeLabel env a l) s = Returns tt s' /\
      isPanelOpen s' = true /\
      selectedNode s' = Some n /\
      findById a (nodes s')
      = Some (mkTreeNode (id n) l (description n) (parentId n) (position n)) /\
      selectedNode s' <> findById a (nodes s').
Proof.
  intros env s treeId a l n Htree Hne Hfind Hok Hnew.
  set (s1 := mkStoreState (Some n) (currentTreeId s) (nodes s) true
               (focusedNodeId s) (breadcrumbPath s)).
  assert (Hopen : openPanel a s = Returns tt s1).
  { unfold openPanel, bind, get. rewrite Hfind. reflexivity. }
  assert (Hlook : findById a (relabel a l (nodes s))
                  = Some (mkTreeNode (id n) l (description n) (parentId n)
                            (position n))).
  { rewrite findById_relabel, Hfind. cbn [option_map].
    pose proof (findById_In _ _ _ Hfind) as [_ Hid].
    rewrite Hid, String.eqb_refl. reflexivity. }
  exists (withNodes s1 (relabel a l (nodes s))).
  split.
  { unfold bind at 1. rewrite Hopen.
    rewrite (updateNodeLabel_selected env s1 treeId a l Htree Hne).
    cbn [nodes s1]. rewrite Hok. reflexivity. }
  cbn [isPanelOpen selectedNode nodes withNodes s1].
  split; [reflexivity|]. split; [reflexivity|]. split; [exact Hlook|].
  rewrite Hlook. intros Heq. injection Heq as Heq.
  apply Hnew. rewrite Heq. reflexivity.
Qed.

Lemma selection_stale_after_rename_witness :
  exists s',
    (openPanel "A" ;;; updateNodeLabel okEnv "A" "Syntax") sampleStore
    = Returns tt s' /\
    isPanelOpen s' = true /\
    selectedNode s' = Some nodeA /\
    findById "A" (nodes s')
    = Some (mkTreeNode "A" "Syntax" None (Some "root") (mkPosition 300 100)) /\
    selectedNode s' <> findById "A" (nodes s').
Proof.
  refine (selection_stale_after_rename okEnv sampleStore "tree-1" "A" "Syntax"
            nodeA eq_refl _ eq_refl eq_refl _); discriminate.
Defined.

Lemma findById_filtered (keep : TreeNode -> bool) (a : string)
    (ns : list TreeNode) :
  (forall n, In n ns -> id n = a -> keep n = false) ->
  findById a (filter keep ns) = None.
Proof.
  intros Hdrop.
  destruct (findById a (filter keep ns)) as [m|] eqn:Hfind; [|reflexivity].
  apply findById_In in Hfind as [Hm Hid].
  apply filter_In in Hm as [Hm Hkept].
  rewrite (Hdrop m Hm Hid) in Hkept. discriminate.
Qed.

(** X22. The detail panel can outlive its node: when [openPanel] on a node is
    followed by a fulfilled [deleteNode] of that node, the panel stays open
    on the deleted node, which the store no longer has. *)
Theorem selection_dangling_after_delete :
  forall (fuel : nat) (env : Env) (s s' : StoreState) (treeId a : string)
         (n : TreeNode),
    currentTreeId s = Some treeId -> treeId <> "" ->
    findById a (nodes s) = Some n ->
    (openPanel a ;;; deleteNode fuel env a) s = Returns tt s' ->
    isPanelOpen s' = true /\
    selectedNode s' = Some n /\
    findById a (nodes s') = None.
Proof.
  intros fuel env s s' treeId a n Htree Hne Hfind Hrun.
  set (s1 := mkStoreState (Some n) (currentTreeId s) (nodes s) true
               (focusedNodeId s) (breadcrumbPath s)).
  assert (Hopen : openPanel a s = Returns tt s1).
  { unfold openPanel, bind, get. rewrite Hfind. reflexivity. }
  unfold bind at 1 in Hrun. rewrite Hopen in Hrun.
  destruct (findChildren fuel (nodes s1) a) as [below|] eqn:Hwalk.
  - rewrite (deleteNode_selected fuel env s1 treeId a below Htree Hne Hwalk)
      in Hrun.
    destruct (supabase_update env treeId _); [discriminate|].
    injection Hrun as <-.
    cbn [isPanelOpen selectedNode nodes withNodes s1].
    split; [reflexivity|]. split; [reflexivity|].
    unfold prune. apply findById_filtered.
    intros m _ Hid. apply negb_false_iff, bool_decide_eq_true.
    apply elem_of_list_to_set, list_elem_of_In. left. symmetry. exact Hid.
  - rewrite (deleteNode_diverges fuel env s1 treeId a Htree Hne Hwalk) in Hrun.
    discriminate.
Qed.

Lemma selection_dangling_after_delete_witness :
  isPanelOpen
    (mkStoreState (Some nodeA) (Some "tree-1") [nodeR; nodeB] true None [])
  = true /\
  selectedNode
    (mkStoreState (Some nodeA) (Some "tree-1") [nodeR; nodeB] true None [])
  = Some nodeA /\
  findById "A"
    (nodes (mkStoreState (Some nodeA) (Some "tree-1") [nodeR; nodeB] true None []))
  = None.
Proof.
  refine (selection_dangling_after_delete 4 okEnv sampleStore _ "tree-1" "A"
            nodeA eq_refl _ eq_refl _).
  - discriminate.
  - vm_compute. reflexivity.
Defined.

(** ** The card's focus button *)

(** X23. The focus button of a card does what a double click does, except on
    the id ['root']: with a non-empty store, [handleFocusToChild] and
    [handleNodeFocus] leave the same store for every other id; for ['root']
    the double click clears the focus and the button focuses the root. *)
Theorem focus_button_and_double_click :
  forall (fuel : nat) (data : list TreeNode) (node_id : string)
         (s : StoreState),
    nodes s <> [] ->
    (node_id <> "root" ->
     handleFocusToChild fuel node_id s = handleNodeFocus fuel data node_id s) /\
    (node_id = "root" ->
     (exists s1, handleNodeFocus fuel data node_id s = Returns tt s1 /\
                 focusedNodeId s1 = None /\ breadcrumbPath s1 = []) /\
     (forall s2, handleFocusToChild fuel node_id s = Returns tt s2 ->
                 focusedNodeId s2 = Some "root")).
Proof.
  intros fuel data node_id s Hsome.
  assert (Hall : allNodes data s = nodes s).
  { unfold allNodes. destruct (nodes s); [contradiction|reflexivity]. }
  split.
  - intros Hnroot. unfold handleFocusToChild, handleNodeFocus.
    apply String.eqb_neq in Hnroot. rewrite Hnroot.
    change ((fun s0 => (setFocusedNode (Some node_id) ;;;
                        path <- walk (calculateBreadcrumbPath fuel node_id
                                        (nodes s0)) ;;
                        setBreadcrumbPath path) s0) s
            = (fun s0 => (setFocusedNode (Some node_id) ;;;
                          path <- walk (calculateBreadcrumbPath fuel node_id
                                          (allNodes data s0)) ;;
                          setBreadcrumbPath path) s0) s).
    cbv beta. rewrite Hall. reflexivity.
  - intros ->. split.
    + eexists. split; [reflexivity|]. split; reflexivity.
    + intros s2 Hrun. unfold handleFocusToChild in Hrun.
      cbv [bind get setFocusedNode setBreadcrumbPath walk] in Hrun.
      cbn [nodes] in Hrun.
      destruct (calculateBreadcrumbPath fuel "root" (nodes s));
        [|discriminate].
      injection Hrun as <-. reflexivity.
Qed.

Lemma focus_button_and_double_click_witness :
  ("A" <> "root" ->
   handleFocusToChild 4 "A" sampleStore = handleNodeFocus 4 [] "A" sampleStore) /\
  ("A" = "root" ->
   (exists s1, handleNodeFocus 4 [] "A" sampleStore = Returns tt s1 /\
               focusedNodeId s1 = None /\ breadcrumbPath s1 = []) /\
   (forall s2, handleFocusToChild 4 "A" sampleStore = Returns tt s2 ->
               focusedNodeId s2 = Some "root")).
Proof.
  refine (focus_button_and_double_click 4 [] "A" sampleStore _). discriminate.
Defined.

(** ** Automatic layout *)

Lemma handleAutoLayout_settles :
  forall (env : Env) (layouted : list (Layout.Node float))
         (effective : list TreeNode) (s : StoreState),
    layouted <> [] ->
    handleAutoLayout env layouted effective s
    = Returns tt
        (withNodes s
           (updatedStoreNodes layouted
              (if (0 <? length (nodes s))%nat then nodes s else effective))).
Proof.
  intros env layouted effective s Hsome.
  destruct layouted as [|placed rest]; [contradiction|].
  unfold handleAutoLayout. cbn [length Nat.eqb].
  cbv [bind get setNodes set_nodes try_catch saveTreeToSupabase throw ret].
  cbn [currentTreeId nodes withNodes].
  destruct (currentTreeId s) as [treeId|]; [|reflexivity].
  destruct (negb (truthy (Some treeId))); [reflexivity|].
  destruct (supabase_update env treeId _); reflexivity.
Qed.

(** X24. Automatic layout never rolls back: whatever the remote store
    answers, and with or without a tree selected, [handleAutoLayout] fulfils
    and leaves the laid-out positions in the store, written over the store's
    nodes or, while the store is empty, over the nodes on screen. *)
Theorem handleAutoLayout_never_rolls_back :
  forall (env : Env) (layouted : list (Layout.Node float))
         (effective : list TreeNode) (s : StoreState),
    layouted <> [] ->
    handleAutoLayout env layouted effective s
    = Returns tt
        (withNodes s
           (updatedStoreNodes layouted
              (if (0 <? length (nodes s))%nat then nodes s else effective))).
Proof. exact handleAutoLayout_settles. Qed.

Lemma handleAutoLayout_never_rolls_back_witness :
  handleAutoLayout failEnv
    [Layout.mkNode "A" (Layout.mkXY 10 20)%float None None] [] sampleStore
  = Returns tt
      (withNodes sampleStore
         (updatedStoreNodes [Layout.mkNode "A" (Layout.mkXY 10 20)%float None None]
            (if (0 <? length (nodes sampleStore))%nat
             then nodes sampleStore else []))).
Proof.
  refine (handleAutoLayout_never_rolls_back failEnv
            [Layout.mkNode "A" (Layout.mkXY 10 20)%float None None] []
            sampleStore _).
  discriminate.
Defined.

Lemma updatedStoreNodes_keeps_tree (layouted : list (Layout.Node float))
    (ns : list TreeNode) :
  is_tree ns -> is_tree (updatedStoreNodes layouted ns).
Proof.
  unfold updatedStoreNodes. apply is_tree_map; intros n;
    destruct (find _ layouted); reflexivity.
Qed.

(** X26. Automatic layout keeps the tree a tree: from a store whose nodes
    are a tree, the nodes [handleAutoLayout] leaves are a tree with the same
    ids, whatever the layout placed and whatever the remote store answers. *)
Theorem handleAutoLayout_keeps_tree :
  forall (env : Env) (layouted : list (Layout.Node float))
         (effective : list TreeNode) (s s' : StoreState),
    is_tree (nodes s) ->
    finalStore (handleAutoLayout env layouted effective s) = Some s' ->
    is_tree (nodes s') /\ map id (nodes s') = map id (nodes s).
Proof.
  intros env layouted effective s s' Htree Hend.
  destruct layouted as [|placed rest].
  - cbn in Hend. injection Hend as <-. split; [exact Htree|reflexivity].
  - rewrite handleAutoLayout_settles in Hend by discriminate.
    cbn [finalStore] in Hend. injection Hend as <-.
    cbn [nodes withNodes].
    assert (Hsome : (0 <? length (nodes s))%nat = true).
    { destruct Htree as (_ & _ & Hone & _). unfold one_root, roots in Hone.
      destruct (nodes s); [discriminate Hone|reflexivity]. }
    rewrite Hsome. split.
    + apply updatedStoreNodes_keeps_tree. exact Htree.
    + unfold updatedStoreNodes. apply ids_map. intros n.
      destruct (find _ (placed :: rest)); reflexivity.
Qed.

Lemma handleAutoLayout_keeps_tree_witness :
  is_tree
    (nodes (withNodes sampleStore
              (updatedStoreNodes
                 [Layout.mkNode "A" (Layout.mkXY 10 20)%float None None]
                 sampleNodes))) /\
  map id
    (nodes (withNodes sampleStore
              (updatedStoreNodes
                 [Layout.mkNode "A" (Layout.mkXY 10 20)%float None None]
                 sampleNodes)))
  = map id (nodes sampleStore).
Proof.
  refine (handleAutoLayout_keeps_tree failEnv
            [Layout.mkNode "A" (Layout.mkXY 10 20)%float None None] []
            sampleStore _ sample_is_tree _).
  vm_compute. reflexivity.
Defined.

(** ** Cards and the view *)

Lemma existsb_filter (keep : TreeNode -> bool) (ns : list TreeNode) :
  existsb keep ns = (0 <? length (filter keep ns))%nat.
Proof.
  induction ns as [|n ns IH]; [reflexivity|].
  cbn [existsb filter]. destruct (keep n); [reflexivity|exact IH].
Qed.

(** X28. A card offers its focus button exactly when focusing it shows more
    than the card itself: for a node of the node set with a non-empty id,
    [hasChildren] is [true] iff the view focused on it has more than one
    node. *)
Theorem focus_button_iff_view_grows :
  forall (node_id : string) (ns : list TreeNode) (n : TreeNode),
    node_id <> "" ->
    findById node_id ns = Some n ->
    hasChildren node_id ns
    = (1 <? length (effectiveData (Some node_id) ns))%nat.
Proof.
  intros node_id ns n Hne Hfind.
  unfold effectiveData, getFocusedNodes, hasChildren.
  pose proof (proj2 (truthy_Some node_id) Hne) as Ht. rewrite Ht. cbn [negb].
  rewrite Hfind. cbn [app length]. apply existsb_filter.
Qed.

Lemma focus_button_iff_view_grows_witness :
  hasChildren "A" sampleNodes
  = (1 <? length (effectiveData (Some "A") sampleNodes))%nat.
Proof.
  refine (focus_button_iff_view_grows "A" sampleNodes nodeA _ eq_refl).
  discriminate.
Defined.

Lemma effectiveData_incl (focused : option string) (ns : list TreeNode)
    (n : TreeNode) :
  In n (effectiveData focused ns) -> In n ns.
Proof.
  assert (Hfocus : forall f, In n (getFocusedNodes f ns) -> In n ns).
  { intros f. unfold getFocusedNodes.
    destruct (negb (truthy (Some f))); [tauto|].
    destruct (findById f ns) as [m|] eqn:Hfind; [|tauto].
    cbn [app]. intros [<-|Hchild].
    - apply (findById_In _ _ _ Hfind).
    - apply filter_In in Hchild. tauto. }
  assert (Hdefault : In n (getDefaultFocusedNodes ns) -> In n ns).
  { unfold getDefaultFocusedNodes.
    destruct (length ns =? 0)%nat; [intros []|].
    destruct (find _ ns) as [r|] eqn:Hroot; [|tauto].
    cbn [app]. intros [<-|Hchild].
    - apply (find_some _ _ Hroot).
    - apply filter_In in Hchild. tauto. }
  unfold effectiveData.
  destruct focused as [f|]; [|exact Hdefault].
  destruct (truthy (Some f)); [apply Hfocus|exact Hdefault].
Qed.

(** X29. The cards on screen carry nodes of the node set under their own
    ids: every card built from the view, focused or not, has the id of its
    [raw] node, that node is in the node set, and there is one card per node
    of the view. This is what the drop handler relies on. *)
Theorem cards_carry_nodes_of_the_set :
  forall (focused : option string) (ns : list TreeNode),
    let cards := flowNodesOf (effectiveData focused ns) in
    length cards = length (effectiveData focused ns) /\
    forall fn, In fn cards ->
      exists r, raw fn = Some r /\ Layout.id (geometry fn) = id r /\ In r ns.
Proof.
  intros focused ns cards. unfold cards, flowNodesOf. split.
  - apply length_map.
  - intros fn Hfn. apply in_map_iff in Hfn as (item & <- & Hitem).
    exists item. cbn [raw geometry Layout.id].
    split; [reflexivity|]. split; [reflexivity|].
    apply (effectiveData_incl focused ns item Hitem).
Qed.
